(** * Retry, fallback, throttling and accounting in the x402 sample scripts

    A shallow embedding of the paid-request helper [paidFetch] (src/index.ts)
    and of the ad hoc orchestration code built on it:

    - [tryWithRetry] and [run]       (markets/opportunities script),
    - [safePaidFetch] and [call]     (Meteora yield scripts),
    - the two-branch [Promise.all] join of the Hyperliquid scripts.

    Asynchronous code is modelled as a state-and-exception monad over a
    [World]: the network is an oracle giving the exchange observed by the
    k-th invocation of [paidFetch], and every outbound request and every
    [setTimeout] sleep is appended to a chronological trace.  Console
    output is not part of the trace. *)

From Stdlib Require Import ZArith List String Ascii Bool Lia.
From Stdlib Require Import Decimal DecimalString.
From Stdlib Require Import QArith Qround.
Import ListNotations.

Local Open Scope string_scope.
Local Open Scope Z_scope.

(* ------------------------------------------------------------------ *)
(** ** JavaScript strings *)

(** [s.includes(sub)]: [sub] occurs somewhere in [s]. *)
Fixpoint includes (s sub : string) : bool :=
  String.prefix sub s
  || match s with
     | EmptyString => false
     | String _ rest => includes rest sub
     end.

(** Template-literal rendering of a non-negative integer such as
    [response.status]. *)
Definition show_nat (n : nat) : string :=
  NilZero.string_of_uint (Nat.to_uint n).

(** [s.substring(0, n)]. *)
Definition js_substring0 (n : nat) (s : string) : string :=
  String.substring 0 n s.

(* ------------------------------------------------------------------ *)
(** ** Thrown values and completion records *)

(** What a [catch] clause may receive.  [ErrorObj m] is an instance of
    [Error] whose [message] is [m]; [NonError t] is any other non-nullish
    value without a [message] property, [t] being [String(err)]. *)
Inductive thrown : Type :=
| ErrorObj (message : string)
| NonError (text : string).

(** How an asynchronous computation ends: it resolves, it rejects, the
    process is terminated by [process.exit], or the model ran out of
    loop fuel (shown below never to happen). *)
Inductive outcome (A : Type) : Type :=
| Ok (a : A)
| Throw (e : thrown)
| Exit (code : Z)
| Diverged.

Arguments Ok {A} a.
Arguments Throw {A} e.
Arguments Exit {A} code.
Arguments Diverged {A}.

(** Exit of a [for] loop body: the enclosing function returned, or the
    loop condition became false and control fell through. *)
Inductive loop_exit (A : Type) : Type :=
| Returned (a : A)
| FellThrough.

Arguments Returned {A} a.
Arguments FellThrough {A}.

(* ------------------------------------------------------------------ *)
(** ** Requests *)

(** The optional second argument of [paidFetch]. *)
Record fetch_options : Type := mkOptions {
  opt_method : option string;
  opt_body : option string          (* JSON.stringify(options.body) *)
}.

Record request : Type := mkRequest {
  req_url : string;
  req_method : string;
  req_json : option string
}.

Definition BASE_URL : string := "https://agent.metengine.xyz".

(** index.ts, lines 27-33. *)
Definition build_request (path : string) (options : option fetch_options)
  : request :=
  let method :=
    match options with
    | Some o => match opt_method o with Some m => m | None => "GET" end
    | None => "GET"
    end in
  let url := BASE_URL ++ path in
  mkRequest url method
    match options with
    | Some o => opt_body o
    | None => None
    end.

(** Observable effects.  [EvFetch r false] is the initial request,
    [EvFetch r true] the resend carrying the payment headers. *)
Inductive event : Type :=
| EvFetch (r : request) (with_payment : bool)
| EvSleep (ms : Z).

Definition is_sleep (e : event) : option Z :=
  match e with
  | EvSleep ms => Some ms
  | EvFetch _ _ => None
  end.

(** The sleep durations of a trace, in order. *)
Fixpoint sleeps (t : list event) : list Z :=
  match t with
  | [] => []
  | e :: t' =>
    match is_sleep e with
    | Some ms => ms :: sleeps t'
    | None => sleeps t'
    end
  end.

Section Model.

(** Opaque payload types, and the arithmetic of JavaScript numbers used
    for money ([totalCost += price]). *)
Variables Payload Settlement Price : Type.
Variable price_add : Price -> Price -> Price.

(** [{ data, settlement, price }] as returned by [paidFetch]. *)
Record call_result : Type := mkResult {
  data : Payload;
  settlement : Settlement;
  price : Price
}.

(** Everything the remote side and the x402 client library contribute to
    one invocation of [paidFetch]:
    - [ex_initial]: the first [fetch] rejects, or answers with a status;
    - [ex_quote]: reading and parsing the quote or signing the payment
      throws (index.ts lines 38-50), or the price is obtained;
    - [ex_paid]: the resend rejects, or answers with status and text;
    - [ex_body]: parsing the paid body or the settlement header throws,
      or both are obtained. *)
Record exchange : Type := mkExchange {
  ex_initial : thrown + nat;
  ex_quote : thrown + Price;
  ex_paid : thrown + (nat * string);
  ex_body : thrown + (Payload * Settlement)
}.

(** The body of [paidFetch] against one exchange: its completion and the
    requests it issued. *)
Definition paidFetch_core (req : request) (ex : exchange)
  : outcome call_result * list event :=
  match ex_initial ex with
  | inl e => (Throw e, [EvFetch req false])
  | inr status =>
    if negb (status =? 402)%nat then
      (Throw (ErrorObj ("Expected 402, got " ++ show_nat status)),
       [EvFetch req false])
    else
      match ex_quote ex with
      | inl e => (Throw e, [EvFetch req false])
      | inr price =>
        match ex_paid ex with
        | inl e => (Throw e, [EvFetch req false; EvFetch req true])
        | inr (paid_status, paidText) =>
          if negb (paid_status =? 200)%nat then
            (Throw (ErrorObj ("Payment failed (" ++ show_nat paid_status
                              ++ "): " ++ js_substring0 500 paidText)),
             [EvFetch req false; EvFetch req true])
          else
            match ex_body ex with
            | inl e => (Throw e, [EvFetch req false; EvFetch req true])
            | inr (d, s) =>
              (Ok (mkResult d s price),
               [EvFetch req false; EvFetch req true])
            end
        end
      end
  end.

(** ** The world *)

Record World : Type := mkWorld {
  w_net : nat -> request -> exchange;   (* the k-th paidFetch sees this *)
  w_calls : nat;                        (* paidFetch invocations so far *)
  w_trace : list event;                 (* chronological *)
  totalCost : Price;                    (* module-level [let totalCost] *)
  callCount : Z                         (* module-level [let callCount] *)
}.

Definition M (A : Type) : Type := World -> outcome A * World.

Definition ret {A} (a : A) : M A := fun w => (Ok a, w).

Definition throw {A} (e : thrown) : M A := fun w => (Throw e, w).

Definition bind {A B} (m : M A) (k : A -> M B) : M B :=
  fun w =>
    match m w with
    | (Ok a, w') => k a w'
    | (Throw e, w') => (Throw e, w')
    | (Exit c, w') => (Exit c, w')
    | (Diverged, w') => (Diverged, w')
    end.

(** [try { m } catch (err) { h err }]. *)
Definition try_catch {A} (m : M A) (h : thrown -> M A) : M A :=
  fun w =>
    match m w with
    | (Throw e, w') => h e w'
    | other => other
    end.

Definition emit (e : event) : M unit :=
  fun w => (Ok tt, mkWorld (w_net w) (w_calls w) (w_trace w ++ [e])
                           (totalCost w) (callCount w)).

(** [await new Promise((r) => setTimeout(r, ms))]. *)
Definition sleep (ms : Z) : M unit := emit (EvSleep ms).

Definition process_exit {A} (code : Z) : M A := fun w => (Exit code, w).

(** The completion of the [k]-th invocation of [paidFetch], if it is made
    for request [req]. *)
Definition attempt_outcome (w : World) (k : nat) (req : request)
  : outcome call_result :=
  fst (paidFetch_core req (w_net w k req)).

Definition attempt_events (w : World) (k : nat) (req : request)
  : list event :=
  snd (paidFetch_core req (w_net w k req)).

(** [paidFetch(path, options)], index.ts lines 23-69. *)
Definition paidFetch (path : string) (options : option fetch_options)
  : M call_result :=
  fun w =>
    let req := build_request path options in
    let k := w_calls w in
    (attempt_outcome w k req,
     mkWorld (w_net w) (S k) (w_trace w ++ attempt_events w k req)
             (totalCost w) (callCount w)).

Notation "x <- m ;; k" := (bind m (fun x => k))
  (at level 61, m at next level, right associativity).
Notation "m ;;; k" := (bind m (fun _ => k))
  (at level 61, right associativity).

Definition diverge {A} : M A := fun w => (Diverged, w).

(* ------------------------------------------------------------------ *)
(** ** markets/opportunities script: [tryWithRetry] and [run] *)

Definition PRIMARY : string :=
  "/api/v1/markets/opportunities?min_signal_strength=moderate&min_smart_wallets=3&limit=20".
Definition FALLBACK : string :=
  "/api/v1/markets/high-conviction?min_smart_wallets=5&min_avg_score=65&limit=20".

(** [err instanceof Error ? err.message : String(err)]. *)
Definition message_of_instance (err : thrown) : string :=
  match err with
  | ErrorObj m => m
  | NonError t => t
  end.

Definition isTimeout (msg : string) : bool :=
  includes msg "504" || includes msg "timeout" || includes msg "503".

(** The [for] loop of [tryWithRetry]; one unit of fuel per evaluation of
    the loop condition. *)
Fixpoint tryWithRetry_loop (fuel : nat) (path label : string)
    (retries attempt : Z) : M (loop_exit (option call_result)) :=
  match fuel with
  | O => diverge
  | S fuel' =>
    if attempt <=? retries then
      try_catch
        ((if 0 <? attempt then sleep 3000 else ret tt) ;;;
         result <- paidFetch path None ;;
         ret (Returned (Some result)))
        (fun err =>
           let msg := message_of_instance err in
           if isTimeout msg && (attempt <? retries) then
             tryWithRetry_loop fuel' path label retries (attempt + 1)
           else if isTimeout msg then
             ret (Returned None)
           else
             throw err)
    else ret FellThrough
  end.

Definition loop_fuel (retries : Z) : nat := S (Z.to_nat (retries + 1)).

Definition tryWithRetry (path label : string) (retries : Z)
  : M (option call_result) :=
  x <- tryWithRetry_loop (loop_fuel retries) path label retries 0 ;;
  match x with
  | Returned r => ret r
  | FellThrough => ret None
  end.

(** Lines 42-50 of [run]: the values of [endpointUsed] and [result] when
    control reaches the final [if (!result)]. *)
Definition run_select : M (string * option call_result) :=
  result <- tryWithRetry PRIMARY "opportunities" 1 ;;
  match result with
  | None =>
    result' <- tryWithRetry FALLBACK "high-conviction" 1 ;;
    ret (FALLBACK, result')
  | Some _ => ret (PRIMARY, result)
  end.

(** [run]: on success it goes on to print the endpoint used and the
    result, which are returned here. *)
Definition run : M (string * call_result) :=
  sel <- run_select ;;
  match snd sel with
  | None => process_exit 1
  | Some r => ret (fst sel, r)
  end.

(* ------------------------------------------------------------------ *)
(** ** Meteora yield scripts: [safePaidFetch] and [call] *)

(** [err?.message ?? String(err)]. *)
Definition message_or_string (err : thrown) : string :=
  match err with
  | ErrorObj m => m
  | NonError t => t
  end.

Definition isRetryable (msg : string) : bool :=
  includes msg "504" || includes msg "500" || includes msg "503"
  || includes msg "429" || includes msg "Too Many Requests".

(** [{ data: result.data, price: result.price }]. *)
Record safe_result : Type := mkSafe {
  safe_data : Payload;
  safe_price : Price
}.

(** The [for] loop of [safePaidFetch]. *)
Fixpoint safePaidFetch_loop (fuel : nat) (path : string)
    (opts : option fetch_options) (retries attempt : Z)
  : M (loop_exit safe_result) :=
  match fuel with
  | O => diverge
  | S fuel' =>
    if attempt <=? retries then
      try_catch
        (result <- paidFetch path opts ;;
         ret (Returned (mkSafe (data result) (price result))))
        (fun err =>
           let msg := message_or_string err in
           if (attempt <? retries) && isRetryable msg then
             let backoff := (attempt + 1) * 5000 in
             sleep backoff ;;;
             safePaidFetch_loop fuel' path opts retries (attempt + 1)
           else
             throw err)
    else ret FellThrough
  end.

Definition safePaidFetch (path : string) (opts : option fetch_options)
    (retries : Z) : M safe_result :=
  x <- safePaidFetch_loop (loop_fuel retries) path opts retries 0 ;;
  match x with
  | Returned r => ret r
  | FellThrough => throw (ErrorObj "unreachable")
  end.

Definition CALL_DELAY_MS : Z := 5000.

Definition get_callCount : M Z := fun w => (Ok (callCount w), w).

(** [callCount++]. *)
Definition incr_callCount : M unit :=
  fun w => (Ok tt, mkWorld (w_net w) (w_calls w) (w_trace w)
                           (totalCost w) (callCount w + 1)).

(** [totalCost += price]. *)
Definition add_totalCost (p : Price) : M unit :=
  fun w => (Ok tt, mkWorld (w_net w) (w_calls w) (w_trace w)
                           (price_add (totalCost w) p) (callCount w)).

(** [call(label, path, opts)]; [safePaidFetch] is invoked with its
    default [retries = 3]. *)
Definition call (label path : string) (opts : option fetch_options)
  : M Payload :=
  n <- get_callCount ;;
  (if 0 <? n then sleep CALL_DELAY_MS else ret tt) ;;;
  incr_callCount ;;;
  r <- safePaidFetch path opts 3 ;;
  add_totalCost (safe_price r) ;;;
  ret (safe_data r).

(* ------------------------------------------------------------------ *)
(** ** Hyperliquid scripts: the two-branch join *)

(** [p.catch((err) => { console.error(..., err.message); return null; })]. *)
Definition catch_null (p : M call_result) : M (option call_result) :=
  try_catch (r <- p ;; ret (Some r)) (fun _ => ret None).

(** [await Promise.all([p1, p2])].  Both promises exist before
    [Promise.all] is entered, so both branches run whatever the other one
    does; the join rejects when one of them rejects.  The model runs the
    branches one after the other: the first branch issues its initial
    request first, and the results do not depend on the later
    interleaving. *)
Definition promise_all2 {A B} (p1 : M A) (p2 : M B) : M (A * B) :=
  fun w =>
    let (o1, w1) := p1 w in
    let (o2, w2) := p2 w1 in
    match o1, o2 with
    | Ok a, Ok b => (Ok (a, b), w2)
    | Throw e, _ => (Throw e, w2)
    | Ok _, Throw e => (Throw e, w2)
    | Exit c, _ => (Exit c, w2)
    | Ok _, Exit c => (Exit c, w2)
    | Diverged, _ => (Diverged, w2)
    | Ok _, Diverged => (Diverged, w2)
    end.

Definition join_catching (pathA pathB : string)
  : M (option call_result * option call_result) :=
  promise_all2 (catch_null (paidFetch pathA None))
               (catch_null (paidFetch pathB None)).

(** [main] of the long/short pressure script: [pairsResult] and
    [summaryResult]. *)
Definition pressure_main : M (option call_result * option call_result) :=
  join_catching "/api/v1/hl/pressure/pairs" "/api/v1/hl/pressure/summary".

(** [main] of the directional-bias script: [whalesResult] and
    [signalsResult]. *)
Definition bias_main : M (option call_result * option call_result) :=
  join_catching "/api/v1/hl/trades/whales?min_usd=50000&timeframe=24h&limit=200"
                "/api/v1/hl/smart-wallets/signals?timeframe=7d&min_score=60&limit=50".

End Model.

Arguments mkResult {Payload Settlement Price} data settlement price.
Arguments data {Payload Settlement Price} c.
Arguments settlement {Payload Settlement Price} c.
Arguments price {Payload Settlement Price} c.
Arguments mkExchange {Payload Settlement Price}.
Arguments ex_initial {Payload Settlement Price} e.
Arguments ex_quote {Payload Settlement Price} e.
Arguments ex_paid {Payload Settlement Price} e.
Arguments ex_body {Payload Settlement Price} e.
Arguments paidFetch_core {Payload Settlement Price} req ex.
Arguments mkWorld {Payload Settlement Price}.
Arguments w_net {Payload Settlement Price} w.
Arguments w_calls {Payload Settlement Price} w.
Arguments w_trace {Payload Settlement Price} w.
Arguments totalCost {Payload Settlement Price} w.
Arguments callCount {Payload Settlement Price} w.
Arguments ret {Payload Settlement Price A} a.
Arguments throw {Payload Settlement Price A} e.
Arguments bind {Payload Settlement Price A B} m k.
Arguments try_catch {Payload Settlement Price A} m h.
Arguments emit {Payload Settlement Price} e.
Arguments sleep {Payload Settlement Price} ms.
Arguments process_exit {Payload Settlement Price A} code.
Arguments diverge {Payload Settlement Price A}.
Arguments attempt_outcome {Payload Settlement Price} w k req.
Arguments attempt_events {Payload Settlement Price} w k req.
Arguments paidFetch {Payload Settlement Price} path options.
Arguments tryWithRetry_loop {Payload Settlement Price} fuel path label retries attempt.
Arguments tryWithRetry {Payload Settlement Price} path label retries.
Arguments run_select {Payload Settlement Price}.
Arguments run {Payload Settlement Price}.
Arguments mkSafe {Payload Price} safe_data safe_price.
Arguments safe_data {Payload Price} s.
Arguments safe_price {Payload Price} s.
Arguments safePaidFetch_loop {Payload Settlement Price} fuel path opts retries attempt.
Arguments safePaidFetch {Payload Settlement Price} path opts retries.
Arguments get_callCount {Payload Settlement Price}.
Arguments incr_callCount {Payload Settlement Price}.
Arguments add_totalCost {Payload Settlement Price} price_add p.
Arguments call {Payload Settlement Price} price_add label path opts.
Arguments catch_null {Payload Settlement Price} p.
Arguments promise_all2 {Payload Settlement Price A B} p1 p2.
Arguments join_catching {Payload Settlement Price} pathA pathB.
Arguments pressure_main {Payload Settlement Price}.
Arguments bias_main {Payload Settlement Price}.

(* ------------------------------------------------------------------ *)
(** ** Vocabulary of the properties *)

(** The transient signals as the specification lists them: gateway
    timeout, service unavailable, internal server error, rate limiting. *)
Definition spec_transient (msg : string) : bool :=
  includes msg "504" || includes msg "503" || includes msg "500"
  || includes msg "429" || includes msg "Too Many Requests".

(** Backoff policies of the two wrappers, by index of the failed attempt. *)
Definition linear_backoff (attempt : Z) : Z := (attempt + 1) * 5000.
Definition fixed_backoff (_ : Z) : Z := 3000.

(** The trace of [k + 1] attempts, numbered from [attempt] and served by
    the exchanges from index [c] on, with one backoff sleep between
    consecutive attempts. *)
Fixpoint retry_schedule (backoff : Z -> Z) (evs : nat -> list event)
    (attempt : Z) (c k : nat) : list event :=
  match k with
  | O => evs c
  | S k' =>
    evs c ++ EvSleep (backoff attempt)
          :: retry_schedule backoff evs (attempt + 1) (S c) k'
  end.

(** Statuses in the HTTP range whose rendering trips the substring
    matchers. *)
Definition safe_retried_status (st : nat) : bool :=
  (st =? 429)%nat || (st =? 500)%nat || (st =? 503)%nat || (st =? 504)%nat.
Definition try_retried_status (st : nat) : bool :=
  (st =? 503)%nat || (st =? 504)%nat.

(** The world once [n] further invocations of [paidFetch] and the events
    [evs] have happened. *)
Definition advance {Payload Settlement Price}
    (w : World Payload Settlement Price) (n : nat) (evs : list event)
  : World Payload Settlement Price :=
  mkWorld (w_net w) (w_calls w + n) (w_trace w ++ evs)
          (totalCost w) (callCount w).

(** The world after [await sleep(ms)]. *)
Definition slept {Payload Settlement Price}
    (w : World Payload Settlement Price) (ms : Z)
  : World Payload Settlement Price :=
  mkWorld (w_net w) (w_calls w) (w_trace w ++ [EvSleep ms])
          (totalCost w) (callCount w).

(** The [k]-th invocation of [paidFetch], made for [req], rejects with an
    error that [safePaidFetch] classifies as retryable. *)
Definition fails_retryable {Payload Settlement Price}
    (w : World Payload Settlement Price) (k : nat) (req : request) : Prop :=
  exists e, attempt_outcome w k req = Throw e
            /\ isRetryable (message_or_string e) = true.

(** The same for the classification made by [tryWithRetry]. *)
Definition fails_timeout {Payload Settlement Price}
    (w : World Payload Settlement Price) (k : nat) (req : request) : Prop :=
  exists e, attempt_outcome w k req = Throw e
            /\ isTimeout (message_of_instance e) = true.

(** Attempt number [a] ended with [o] and [safePaidFetch] retries. *)
Definition safe_goes_on {Payload Settlement Price} (retries a : Z)
    (o : outcome (call_result Payload Settlement Price)) : bool :=
  match o with
  | Throw e => (a <? retries) && isRetryable (message_or_string e)
  | _ => false
  end.

(** What [safePaidFetch]'s loop makes of the completion of an attempt
    after which it does not go round again. *)
Definition safe_lift {Payload Settlement Price}
    (o : outcome (call_result Payload Settlement Price))
  : outcome (loop_exit (safe_result Payload Price)) :=
  match o with
  | Ok r => Ok (Returned (mkSafe (data r) (price r)))
  | Throw e => Throw e
  | Exit c => Exit c
  | Diverged => Diverged
  end.

(** Attempt number [a] ended with [o] and [tryWithRetry] retries. *)
Definition try_goes_on {Payload Settlement Price} (retries a : Z)
    (o : outcome (call_result Payload Settlement Price)) : bool :=
  match o with
  | Throw e => isTimeout (message_of_instance e) && (a <? retries)
  | _ => false
  end.

(** What [tryWithRetry]'s loop makes of it: a transient failure on the
    last attempt becomes the [null] sentinel. *)
Definition try_lift {Payload Settlement Price}
    (o : outcome (call_result Payload Settlement Price))
  : outcome (loop_exit (option (call_result Payload Settlement Price))) :=
  match o with
  | Ok r => Ok (Returned (Some r))
  | Throw e =>
    if isTimeout (message_of_instance e) then Ok (Returned None)
    else Throw e
  | Exit c => Exit c
  | Diverged => Diverged
  end.

(** The value a branch of the join contributes once its [catch] handler
    has run. *)
Definition settled {Payload Settlement Price}
    (o : outcome (call_result Payload Settlement Price))
  : option (call_result Payload Settlement Price) :=
  match o with
  | Ok r => Some r
  | _ => None
  end.

(* ------------------------------------------------------------------ *)
(** ** Concrete worlds used in the examples

    Payloads and settlement proofs are JSON text, prices are counted in
    micro-USDC. *)

Definition exch : Type := @exchange string string Z.
Definition world : Type := @World string string Z.

(** A successful exchange costing [p]. *)
Definition ex_ok (p : Z) (d : string) : exch :=
  mkExchange (inr 402%nat) (inr p) (inr (200%nat, "{}")) (inr (d, "tx")).

(** The initial request is answered with [st] instead of 402. *)
Definition ex_initial_status (st : nat) : exch :=
  mkExchange (inr st) (inr 0) (inr (200%nat, "{}")) (inr ("null", "tx")).

(** The paid resend is answered with [st] and body [body]. *)
Definition ex_paid_status (st : nat) (body : string) : exch :=
  mkExchange (inr 402%nat) (inr 10000) (inr (st, body)) (inr ("null", "tx")).

Definition fresh (net : nat -> request -> exch) : world :=
  mkWorld net 0%nat [] 0 0.

(** Every exchange is the same. *)
Definition always (ex : exch) : world := fresh (fun _ _ => ex).

(** The exchanges of [l] in order, then [dflt] for ever. *)
Definition scripted (l : list exch) (dflt : exch) : world :=
  fresh (fun k _ => nth k l dflt).

(* ------------------------------------------------------------------ *)
(** ** The scripts around the helpers *)

Section Scripts.

Variables Payload Settlement Price : Type.
Variable price_add : Price -> Price -> Price.

(** [JSON.stringify({ owner, pool_type: "all", events_limit: 20 })], by
    owner. *)
Variable stringify_profile_body : string -> string.

(** The printing of a profile inside the [try] block of the profile loop:
    [None] when it completes, [Some e] when reading the payload throws. *)
Variable render_profile : Payload -> option thrown.

(** The value [null], which a payload may also be. *)
Variable payload_null : Payload.

Notation "x <- m ;; k" := (bind m (fun x => k))
  (at level 61, m at next level, right associativity).
Notation "m ;;; k" := (bind m (fun _ => k))
  (at level 61, right associativity).

(** *** index.ts, run as a program (lines 72-85) *)

Definition DEFAULT_ENDPOINT : string := "/api/v1/platform/stats?timeframe=24h".

(** [argv2] is [process.argv[2]]; the result is what gets printed. *)
Definition index_main (argv2 : option string)
  : M Payload Settlement Price (call_result Payload Settlement Price) :=
  let endpoint :=
    match argv2 with
    | Some a => a
    | None => DEFAULT_ENDPOINT
    end in
  try_catch (paidFetch endpoint None) (fun _ => process_exit 1).

(** *** insiders.ts *)

Definition INSIDERS_ENDPOINT : string :=
  "/api/v1/wallets/insiders?limit=50&min_score=50&max_wallet_age_days=60".

Definition insiders_main
  : M Payload Settlement Price (call_result Payload Settlement Price) :=
  try_catch (paidFetch INSIDERS_ENDPOINT None) (fun _ => process_exit 1).

(** *** query.ts: three awaited calls in a row, then [p1+p2+p3] *)

Definition QUERY_ROI : string :=
  "/api/v1/wallets/top-performers?timeframe=7d&metric=roi&min_trades=10&limit=25".
Definition QUERY_CRYPTO : string :=
  "/api/v1/wallets/niche-experts?category=Crypto&min_category_trades=10&sort_by=category_sharpe&limit=15".
Definition QUERY_TECH : string :=
  "/api/v1/wallets/niche-experts?category=Tech&min_category_trades=10&sort_by=category_sharpe&limit=15".

Definition query_main : M Payload Settlement Price Price :=
  r1 <- paidFetch QUERY_ROI None ;;
  r2 <- paidFetch QUERY_CRYPTO None ;;
  r3 <- paidFetch QUERY_TECH None ;;
  ret (price_add (price_add (price r1) (price r2)) (price r3)).

(** *** Meteora yield script: step 1 and the fee-analysis loop *)

Definition TOP_POOLS_BY_FEES : string :=
  "/api/v1/meteora/pools/top?sort_by=fees&timeframe=24h&limit=10".
Definition TOP_POOLS_BY_VOLUME : string :=
  "/api/v1/meteora/pools/top?sort_by=volume&timeframe=24h&limit=10".

(** [try { data = await call(fees) } catch { data = await call(volume) }]. *)
Definition step1_topPools : M Payload Settlement Price Payload :=
  try_catch
    (call price_add "Step 1: Top Pools by Fees (24h)" TOP_POOLS_BY_FEES None)
    (fun _ =>
       call price_add "Step 1 (Fallback): Top Pools by Volume (24h)"
            TOP_POOLS_BY_VOLUME None).

(** A row of [topPools] as the loop reads it. *)
Record pool_row : Type := mkPool {
  pool_address : string;
  pool_type : option string
}.

(** [pool.pool_type ? `&pool_type=${pool.pool_type}` : ""]; the empty
    string is falsy. *)
Definition poolTypeParam (pool : pool_row) : string :=
  match pool_type pool with
  | Some t => if String.eqb t "" then "" else "&pool_type=" ++ t
  | None => ""
  end.

Definition fee_analysis_path (pool : pool_row) : string :=
  "/api/v1/meteora/pools/fee-analysis?pool_address=" ++ pool_address pool
  ++ poolTypeParam pool ++ "&timeframe=24h".

(** The [for (const pool of poolsForFeeAnalysis)] loop, threading
    [feeResults]: a call that returns pushes [{ pool, fees: feeData }],
    whatever [feeData] is, and a call that throws pushes
    [{ pool, fees: null }]. *)
Fixpoint fee_loop (pools : list pool_row)
    (feeResults : list (pool_row * Payload))
  : M Payload Settlement Price (list (pool_row * Payload)) :=
  match pools with
  | [] => ret feeResults
  | pool :: rest =>
    pushed <-
      try_catch
        (feeData <- call price_add ("Fee Analysis: " ++ pool_address pool)
                         (fee_analysis_path pool) None ;;
         ret (feeResults ++ [(pool, feeData)])%list)
        (fun _ => ret (feeResults ++ [(pool, payload_null)])%list) ;;
    fee_loop rest pushed
  end.

(** [poolsForFeeAnalysis = topPools.slice(0, 5)]. *)
Definition fee_analysis (topPools : list pool_row)
  : M Payload Settlement Price (list (pool_row * Payload)) :=
  fee_loop (firstn 5 topPools) [].

(** *** Meteora yield scripts: the LP profile loop *)

Definition profile_options (owner : string) : option fetch_options :=
  Some (mkOptions (Some "POST") (Some (stringify_profile_body owner))).

(** The [for (const lp of lpsForProfile)] loop over the owners; whatever
    is thrown inside the [try], by the call or by the printing, is
    caught and logged. *)
Fixpoint profile_loop (owners : list string)
  : M Payload Settlement Price unit :=
  match owners with
  | [] => ret tt
  | owner :: rest =>
    try_catch
      (profile <- call price_add ("LP Profile: " ++ owner)
                       "/api/v1/meteora/lps/profile"
                       (profile_options owner) ;;
       match render_profile profile with
       | None => ret tt
       | Some e => throw e
       end)
      (fun _ => ret tt) ;;;
    profile_loop rest
  end.

(** [lpsForProfile = topLPs.slice(0, 3)]. *)
Definition lp_profiles (topLPs : list string)
  : M Payload Settlement Price unit :=
  profile_loop (firstn 3 topLPs).

End Scripts.

Arguments index_main {Payload Settlement Price} argv2.
Arguments insiders_main {Payload Settlement Price}.
Arguments query_main {Payload Settlement Price} price_add.
Arguments step1_topPools {Payload Settlement Price} price_add.
Arguments fee_loop {Payload Settlement Price} price_add payload_null
  pools feeResults.
Arguments fee_analysis {Payload Settlement Price} price_add payload_null
  topPools.
Arguments profile_loop {Payload Settlement Price} price_add
  stringify_profile_body render_profile owners.
Arguments lp_profiles {Payload Settlement Price} price_add
  stringify_profile_body render_profile topLPs.

(* ------------------------------------------------------------------ *)
(** ** [safePaidFetch] with any finite number as budget

    [retries] is a JavaScript number, and nothing makes it an integer.
    Here it is any rational; [attempt] starts at 0 and is incremented,
    so it stays an integer.  [safePaidFetch_loop] above is this loop at
    the integer budgets, which are the ones the scripts use. *)

Section NumberBudget.

Variables Payload Settlement Price : Type.

Notation "x <- m ;; k" := (bind m (fun x => k))
  (at level 61, m at next level, right associativity).
Notation "m ;;; k" := (bind m (fun _ => k))
  (at level 61, right associativity).

(** [attempt <= retries] and [attempt < retries]. *)
Definition number_le (attempt : Z) (retries : Q) : bool :=
  Qle_bool (inject_Z attempt) retries.

Definition number_lt (attempt : Z) (retries : Q) : bool :=
  negb (Qle_bool retries (inject_Z attempt)).

Fixpoint safePaidFetch_loop_number (fuel : nat) (path : string)
    (opts : option fetch_options) (retries : Q) (attempt : Z)
  : M Payload Settlement Price (loop_exit (safe_result Payload Price)) :=
  match fuel with
  | O => diverge
  | S fuel' =>
    if number_le attempt retries then
      try_catch
        (result <- paidFetch path opts ;;
         ret (Returned (mkSafe (data result) (price result))))
        (fun err =>
           let msg := message_or_string err in
           if number_lt attempt retries && isRetryable msg then
             let backoff := (attempt + 1) * 5000 in
             sleep backoff ;;;
             safePaidFetch_loop_number fuel' path opts retries (attempt + 1)
           else
             throw err)
    else ret FellThrough
  end.

(** One unit of fuel per evaluation of the loop condition, which holds
    for the attempts [0 .. floor retries]. *)
Definition number_fuel (retries : Q) : nat :=
  S (Z.to_nat (Qfloor retries + 1)).

Definition safePaidFetch_number (path : string)
    (opts : option fetch_options) (retries : Q)
  : M Payload Settlement Price (safe_result Payload Price) :=
  x <- safePaidFetch_loop_number (number_fuel retries) path opts retries 0 ;;
  match x with
  | Returned r => ret r
  | FellThrough => throw (ErrorObj "unreachable")
  end.

End NumberBudget.

Arguments safePaidFetch_loop_number {Payload Settlement Price}
  fuel path opts retries attempt.
Arguments safePaidFetch_number {Payload Settlement Price} path opts retries.

(* ------------------------------------------------------------------ *)
(** ** Whale-trade aggregation of the directional-bias script *)

Section Aggregation.

(** JavaScript numbers holding dollar amounts, with [+] and [0]. *)
Variable number : Type.
Variable num_add : number -> number -> number.
Variable num_zero : number.

(** [interface WhaleTrade]; its [price] field is [trade_price] here. *)
Record WhaleTrade : Type := mkTrade {
  trader : string;
  coin : string;
  side : string;
  direction : string;
  trade_price : number;
  size : number;
  usd_value : number;
  closed_pnl : number;
  timestamp : string;
  smart_score : number
}.

Record coin_agg : Type := mkAgg {
  buyVolume : number;
  sellVolume : number;
  buyCount : Z;
  sellCount : Z;
  trades : list WhaleTrade
}.

(** [Map<string, ...>]: entries in insertion order, keys distinct. *)
Definition coin_map : Type := list (string * coin_agg).

Fixpoint map_has (m : coin_map) (k : string) : bool :=
  match m with
  | [] => false
  | (k', _) :: rest => String.eqb k' k || map_has rest k
  end.

Fixpoint map_get (m : coin_map) (k : string) : option coin_agg :=
  match m with
  | [] => None
  | (k', v) :: rest => if String.eqb k' k then Some v else map_get rest k
  end.

(** [m.set(k, v)]: an existing key keeps its place, a new one goes last. *)
Fixpoint map_set (m : coin_map) (k : string) (v : coin_agg) : coin_map :=
  match m with
  | [] => [(k, v)]
  | (k', v') :: rest =>
    if String.eqb k' k then (k, v) :: rest else (k', v') :: map_set rest k v
  end.

Definition empty_agg : coin_agg := mkAgg num_zero num_zero 0 0 [].

(** One round of [for (const t of trades)]; the object obtained from the
    map is updated in place, which here rewrites its entry. *)
Definition agg_step (coinAgg : coin_map) (t : WhaleTrade) : coin_map :=
  let m1 :=
    if negb (map_has coinAgg (coin t))
    then map_set coinAgg (coin t) empty_agg
    else coinAgg in
  match map_get m1 (coin t) with
  | None => m1
  | Some agg =>
    let pushed := (trades agg ++ [t])%list in
    let agg' :=
      if String.eqb (side t) "A" then
        mkAgg (num_add (buyVolume agg) (usd_value t)) (sellVolume agg)
              (buyCount agg + 1) (sellCount agg) pushed
      else if String.eqb (side t) "B" then
        mkAgg (buyVolume agg) (num_add (sellVolume agg) (usd_value t))
              (buyCount agg) (sellCount agg + 1) pushed
      else
        mkAgg (buyVolume agg) (sellVolume agg)
              (buyCount agg) (sellCount agg) pushed in
    map_set m1 (coin t) agg'
  end.

Definition aggregate (ts : list WhaleTrade) : coin_map :=
  fold_left agg_step ts [].

(** The trades of [ts] on coin [c], and those among them of side [s]. *)
Definition on_coin (c : string) (ts : list WhaleTrade) : list WhaleTrade :=
  filter (fun t => String.eqb (coin t) c) ts.

Definition of_side (s : string) (ts : list WhaleTrade) : list WhaleTrade :=
  filter (fun t => String.eqb (side t) s) ts.

(** Left-to-right sum of the dollar values, from [0]. *)
Definition volume (ts : list WhaleTrade) : number :=
  fold_left num_add (map usd_value ts) num_zero.

(** Coins in order of first appearance. *)
Fixpoint first_seen (seen : list string) (ts : list WhaleTrade)
  : list string :=
  match ts with
  | [] => []
  | t :: rest =>
    if existsb (String.eqb (coin t)) seen then first_seen seen rest
    else coin t :: first_seen (coin t :: seen) rest
  end.

End Aggregation.

Arguments mkTrade {number} trader coin side direction trade_price size
  usd_value closed_pnl timestamp smart_score.
Arguments trader {number} w.
Arguments coin {number} w.
Arguments side {number} w.
Arguments direction {number} w.
Arguments trade_price {number} w.
Arguments size {number} w.
Arguments usd_value {number} w.
Arguments closed_pnl {number} w.
Arguments timestamp {number} w.
Arguments smart_score {number} w.
Arguments mkAgg {number} buyVolume sellVolume buyCount sellCount trades.
Arguments buyVolume {number} c.
Arguments sellVolume {number} c.
Arguments buyCount {number} c.
Arguments sellCount {number} c.
Arguments trades {number} c.
Arguments empty_agg {number} num_zero.
Arguments map_has {number} m k.
Arguments map_get {number} m k.
Arguments map_set {number} m k v.
Arguments agg_step {number} num_add num_zero coinAgg t.
Arguments aggregate {number} num_add num_zero ts.
Arguments on_coin {number} c ts.
Arguments of_side {number} s ts.
Arguments volume {number} num_add num_zero ts.
Arguments first_seen {number} seen ts.

(** The first [k] backoff sleeps of [safePaidFetch]. *)
Definition linear_sleeps (k : nat) : list Z :=
  map (fun i => (Z.of_nat i + 1) * 5000) (seq 0 k).

(** Pools of the examples. *)
Definition sample_pools : list pool_row :=
  [ mkPool "PoolOne" (Some "dlmm"); mkPool "PoolTwo" None ].

(** Whale trades of the examples, amounts in whole dollars. *)
Definition sample_trade (who c s : string) (usd : Z) : WhaleTrade Z :=
  mkTrade who c s "S" 1 usd usd 0 "2025-01-01T00:00:00Z" 60.

Definition sample_trades : list (WhaleTrade Z) :=
  [ sample_trade "0xa1" "BTC" "A" 120000;
    sample_trade "0xb2" "ETH" "B" 80000;
    sample_trade "0xc3" "BTC" "B" 50000;
    sample_trade "0xd4" "BTC" "S" 70000;
    sample_trade "0xe5" "ETH" "A" 60000 ].


(* ------------------------------------------------------------------ *)
(** ** Properties *)

Section Properties.

Variables Payload Settlement Price : Type.
Variable price_add : Price -> Price -> Price.

Local Abbreviation W := (World Payload Settlement Price).
Local Abbreviation result := (call_result Payload Settlement Price).

Implicit Types (w : W) (path label : string) (opts : option fetch_options)
  (retries a : Z) (k fuel : nat).

Lemma paidFetch_run path opts w :
  paidFetch path opts w =
  (attempt_outcome w (w_calls w) (build_request path opts),
   advance w 1 (attempt_events w (w_calls w) (build_request path opts))).
Proof.
  unfold paidFetch, advance. rewrite Nat.add_1_r. reflexivity.
Qed.

(** [paidFetch] resolves or rejects; it neither exits nor diverges. *)
Lemma attempt_outcome_cases w k (req : request) :
  (exists r, attempt_outcome w k req = Ok r) \/
  (exists e, attempt_outcome w k req = Throw e).
Proof.
  unfold attempt_outcome, paidFetch_core.
  destruct (ex_initial (w_net w k req)) as [e|st]; simpl; eauto.
  destruct (negb (st =? 402)%nat); simpl; eauto.
  destruct (ex_quote (w_net w k req)) as [e|p]; simpl; eauto.
  destruct (ex_paid (w_net w k req)) as [e|[ps pt]]; simpl; eauto.
  destruct (negb (ps =? 200)%nat); simpl; eauto.
  destruct (ex_body (w_net w k req)) as [e|[d s]]; simpl; eauto.
Qed.

Lemma safePaidFetch_loop_step fuel path opts retries a w :
  safePaidFetch_loop (S fuel) path opts retries a w =
  if a <=? retries then
    let req := build_request path opts in
    let o := attempt_outcome w (w_calls w) req in
    let w1 := advance w 1 (attempt_events w (w_calls w) req) in
    if safe_goes_on retries a o then
      safePaidFetch_loop fuel path opts retries (a + 1)
        (slept w1 (linear_backoff a))
    else (safe_lift o, w1)
  else (Ok FellThrough, w).
Proof.
  simpl. destruct (a <=? retries); [|reflexivity].
  unfold try_catch, bind. rewrite paidFetch_run.
  destruct (attempt_outcome w (w_calls w) (build_request path opts)) as [r|e| |];
    simpl; try reflexivity.
  destruct ((a <? retries) && isRetryable (message_or_string e)); [|reflexivity].
  reflexivity.
Qed.

Lemma tryWithRetry_loop_step fuel path label retries a w :
  tryWithRetry_loop (S fuel) path label retries a w =
  if a <=? retries then
    let req := build_request path None in
    let o := attempt_outcome w (w_calls w) req in
    let w0 := if 0 <? a then slept w 3000 else w in
    let w1 := advance w0 1 (attempt_events w (w_calls w) req) in
    if try_goes_on retries a o then
      tryWithRetry_loop fuel path label retries (a + 1) w1
    else (try_lift o, w1)
  else (Ok FellThrough, w).
Proof.
  cbn [tryWithRetry_loop]. destruct (a <=? retries); [|reflexivity].
  unfold try_catch, bind.
  destruct (0 <? a); cbn [sleep emit ret]; rewrite paidFetch_run;
    cbv zeta; unfold try_goes_on, try_lift;
    destruct (attempt_outcome _ _ (build_request path None))
      as [r|e| |]; try reflexivity;
    destruct (isTimeout (message_of_instance e)); try reflexivity;
    destruct (a <? retries); reflexivity.
Qed.

Lemma advance_advance w n evs m evs' :
  advance (advance w n evs) m evs' = advance w (n + m) (evs ++ evs').
Proof.
  unfold advance; simpl. now rewrite Nat.add_assoc, app_assoc.
Qed.

(** [k] transient failures followed by an attempt that ends the loop:
    the loop completes as that attempt does, after [k + 1] invocations
    spaced by the linear backoff. *)
Lemma safePaidFetch_loop_run k : forall fuel path opts retries a w,
  a + Z.of_nat k <= retries ->
  (k < fuel)%nat ->
  (forall j, (j < k)%nat ->
     exists e, attempt_outcome w (w_calls w + j) (build_request path opts)
               = Throw e
               /\ isRetryable (message_or_string e) = true) ->
  safe_goes_on retries (a + Z.of_nat k)
    (attempt_outcome w (w_calls w + k) (build_request path opts)) = false ->
  safePaidFetch_loop fuel path opts retries a w =
  (safe_lift (attempt_outcome w (w_calls w + k) (build_request path opts)),
   advance w (S k)
     (retry_schedule linear_backoff
        (fun i => attempt_events w i (build_request path opts))
        a (w_calls w) k)).
Proof.
  induction k as [|k IH]; intros fuel path opts retries a w Hle Hfuel Htr Hfin;
    (destruct fuel as [|fuel]; [lia|]);
    rewrite safePaidFetch_loop_step;
    (replace (a <=? retries) with true by (symmetry; apply Z.leb_le; lia));
    cbv zeta.
  - rewrite Z.add_0_r, Nat.add_0_r in Hfin. rewrite Hfin.
    rewrite Nat.add_0_r. reflexivity.
  - destruct (Htr 0%nat) as [e [He Hr]]; [lia|].
    rewrite Nat.add_0_r in He. rewrite He. simpl safe_goes_on.
    rewrite Hr.
    replace (a <? retries) with true by (symmetry; apply Z.ltb_lt; lia).
    simpl andb. cbv iota.
    rewrite (IH fuel path opts retries (a + 1)); simpl w_calls.
    + unfold slept, advance, attempt_outcome, attempt_events; simpl.
      rewrite ?Nat.add_1_r, ?Nat.add_succ_r, <- ?app_assoc. reflexivity.
    + lia.
    + lia.
    + intros j Hj. destruct (Htr (S j)) as [e' [He' Hr']]; [lia|].
      exists e'. split; [|exact Hr'].
      rewrite <- He'. unfold attempt_outcome; simpl.
      rewrite ?Nat.add_1_r, ?Nat.add_succ_r. reflexivity.
    + rewrite <- Hfin. unfold attempt_outcome; simpl.
      rewrite ?Nat.add_1_r, ?Nat.add_succ_r.
      replace (a + 1 + Z.of_nat k) with (a + Z.of_nat (S k)) by lia.
      reflexivity.
Qed.

(** The same for [tryWithRetry], whose fixed sleep opens every attempt
    but the first. *)
Lemma tryWithRetry_loop_run k : forall fuel path label retries a w,
  0 <= a ->
  a + Z.of_nat k <= retries ->
  (k < fuel)%nat ->
  (forall j, (j < k)%nat ->
     exists e, attempt_outcome w (w_calls w + j) (build_request path None)
               = Throw e
               /\ isTimeout (message_of_instance e) = true) ->
  try_goes_on retries (a + Z.of_nat k)
    (attempt_outcome w (w_calls w + k) (build_request path None)) = false ->
  tryWithRetry_loop fuel path label retries a w =
  (try_lift (attempt_outcome w (w_calls w + k) (build_request path None)),
   advance w (S k)
     ((if 0 <? a then [EvSleep 3000] else []) ++
      retry_schedule fixed_backoff
        (fun i => attempt_events w i (build_request path None))
        a (w_calls w) k)).
Proof.
  induction k as [|k IH];
    intros fuel path label retries a w Ha Hle Hfuel Htr Hfin;
    (destruct fuel as [|fuel]; [lia|]);
    rewrite tryWithRetry_loop_step;
    (replace (a <=? retries) with true by (symmetry; apply Z.leb_le; lia));
    cbv zeta.
  - rewrite Z.add_0_r, Nat.add_0_r in Hfin. rewrite Hfin.
    rewrite Nat.add_0_r.
    destruct (0 <? a); unfold slept, advance; simpl;
      rewrite <- ?app_assoc; reflexivity.
  - destruct (Htr 0%nat) as [e [He Hr]]; [lia|].
    rewrite Nat.add_0_r in He. rewrite He. simpl try_goes_on.
    rewrite Hr.
    replace (a <? retries) with true by (symmetry; apply Z.ltb_lt; lia).
    simpl andb. cbv iota.
    rewrite (IH fuel path label retries (a + 1)).
    + replace (0 <? a + 1) with true by (symmetry; apply Z.ltb_lt; lia).
      destruct (0 <? a);
        unfold slept, advance, attempt_outcome, attempt_events,
          fixed_backoff; simpl;
        rewrite ?Nat.add_1_r, ?Nat.add_succ_r, <- ?app_assoc; reflexivity.
    + lia.
    + lia.
    + lia.
    + intros j Hj. destruct (Htr (S j)) as [e' [He' Hr']]; [lia|].
      exists e'. split; [|exact Hr'].
      rewrite <- He'.
      destruct (0 <? a); unfold attempt_outcome; simpl;
        rewrite ?Nat.add_1_r, ?Nat.add_succ_r; reflexivity.
    + rewrite <- Hfin.
      replace (a + 1 + Z.of_nat k) with (a + Z.of_nat (S k)) by lia.
      destruct (0 <? a); unfold attempt_outcome; simpl;
        rewrite ?Nat.add_1_r, ?Nat.add_succ_r; reflexivity.
Qed.

Lemma loop_fuel_enough k retries :
  Z.of_nat k <= retries -> (k < loop_fuel retries)%nat.
Proof. unfold loop_fuel. lia. Qed.

(** [safePaidFetch] itself, in the same situation. *)
Lemma safePaidFetch_run k path opts retries w :
  Z.of_nat k <= retries ->
  (forall j, (j < k)%nat ->
     exists e, attempt_outcome w (w_calls w + j) (build_request path opts)
               = Throw e
               /\ isRetryable (message_or_string e) = true) ->
  safe_goes_on retries (Z.of_nat k)
    (attempt_outcome w (w_calls w + k) (build_request path opts)) = false ->
  safePaidFetch path opts retries w =
  (match attempt_outcome w (w_calls w + k) (build_request path opts) with
   | Ok r => Ok (mkSafe (data r) (price r))
   | Throw e => Throw e
   | Exit c => Exit c
   | Diverged => Diverged
   end,
   advance w (S k)
     (retry_schedule linear_backoff
        (fun i => attempt_events w i (build_request path opts))
        0 (w_calls w) k)).
Proof.
  intros Hle Htr Hfin. unfold safePaidFetch, bind.
  rewrite (safePaidFetch_loop_run k); auto using loop_fuel_enough.
  destruct (attempt_outcome w (w_calls w + k) (build_request path opts));
    reflexivity.
Qed.

Lemma tryWithRetry_run k path label retries w :
  Z.of_nat k <= retries ->
  (forall j, (j < k)%nat ->
     exists e, attempt_outcome w (w_calls w + j) (build_request path None)
               = Throw e
               /\ isTimeout (message_of_instance e) = true) ->
  try_goes_on retries (Z.of_nat k)
    (attempt_outcome w (w_calls w + k) (build_request path None)) = false ->
  tryWithRetry path label retries w =
  (match attempt_outcome w (w_calls w + k) (build_request path None) with
   | Ok r => Ok (Some r)
   | Throw e =>
     if isTimeout (message_of_instance e) then Ok None else Throw e
   | Exit c => Exit c
   | Diverged => Diverged
   end,
   advance w (S k)
     (retry_schedule fixed_backoff
        (fun i => attempt_events w i (build_request path None))
        0 (w_calls w) k)).
Proof.
  intros Hle Htr Hfin. unfold tryWithRetry, bind.
  rewrite (tryWithRetry_loop_run k); auto using loop_fuel_enough; try lia.
  simpl app.
  destruct (attempt_outcome w (w_calls w + k) (build_request path None))
    as [r|e| |]; try reflexivity.
  simpl. destruct (isTimeout (message_of_instance e)); reflexivity.
Qed.

(** A single invocation of [paidFetch] never sleeps and starts with the
    unpaid request. *)
Lemma attempt_events_shape w k (req : request) :
  exists rest, attempt_events w k req = EvFetch req false :: rest
               /\ sleeps rest = [].
Proof.
  unfold attempt_events, paidFetch_core.
  destruct (ex_initial (w_net w k req)) as [e|st]; simpl; eauto.
  destruct (negb (st =? 402)%nat); simpl; eauto.
  destruct (ex_quote (w_net w k req)) as [e|p]; simpl; eauto.
  destruct (ex_paid (w_net w k req)) as [e|[ps pt]]; simpl; eauto.
  destruct (negb (ps =? 200)%nat); simpl; eauto.
  destruct (ex_body (w_net w k req)) as [e|[d s]]; simpl; eauto.
Qed.

Lemma sleeps_app (t1 t2 : list event) :
  sleeps (t1 ++ t2) = (sleeps t1 ++ sleeps t2)%list.
Proof.
  induction t1 as [|e t1 IH]; simpl; [reflexivity|].
  destruct (is_sleep e); simpl; now rewrite IH.
Qed.

Lemma sleeps_attempt_events w k (req : request) :
  sleeps (attempt_events w k req) = [].
Proof.
  destruct (attempt_events_shape w k req) as [rest [-> H]].
  simpl. exact H.
Qed.

Lemma sleeps_retry_schedule (backoff : Z -> Z) w (req : request) k :
  forall a c,
  sleeps (retry_schedule backoff (fun i => attempt_events w i req) a c k)
  = map (fun i => backoff (a + Z.of_nat i)) (seq 0 k).
Proof.
  induction k as [|k IH]; intros a c; simpl.
  - apply sleeps_attempt_events.
  - rewrite sleeps_app, sleeps_attempt_events. simpl.
    rewrite IH, Z.add_0_r. f_equal.
    rewrite <- seq_shift, map_map.
    apply map_ext. intros i. f_equal. lia.
Qed.

(** C1.  In both retry wrappers, whatever the retry budget: when the
    attempts before attempt [k] failed transiently and attempt [k] fails
    with an error matching none of the wrapper's transient signals, that
    very error is propagated and no further attempt is made; with [k = 0]
    exactly one invocation of [paidFetch] has happened. *)
Theorem nontransient_failure_propagates_at_once
    k retries path label opts w e :
  Z.of_nat k <= retries ->
  ((forall j, (j < k)%nat ->
      fails_retryable w (w_calls w + j) (build_request path opts)) ->
   attempt_outcome w (w_calls w + k) (build_request path opts) = Throw e ->
   isRetryable (message_or_string e) = false ->
   safePaidFetch path opts retries w =
   (Throw e,
    advance w (S k)
      (retry_schedule linear_backoff
         (fun i => attempt_events w i (build_request path opts))
         0 (w_calls w) k)))
  /\
  ((forall j, (j < k)%nat ->
      fails_timeout w (w_calls w + j) (build_request path None)) ->
   attempt_outcome w (w_calls w + k) (build_request path None) = Throw e ->
   isTimeout (message_of_instance e) = false ->
   tryWithRetry path label retries w =
   (Throw e,
    advance w (S k)
      (retry_schedule fixed_backoff
         (fun i => attempt_events w i (build_request path None))
         0 (w_calls w) k))).
Proof.
  intros Hle. split; intros Htr He Hnt.
  - rewrite (safePaidFetch_run k); auto.
    + now rewrite He.
    + rewrite He. simpl. rewrite Hnt. apply andb_false_r.
  - rewrite (tryWithRetry_run k); auto.
    + rewrite He, Hnt. reflexivity.
    + rewrite He. simpl. now rewrite Hnt.
Qed.

(** C2.  With [maxRetries = N] and every attempt failing transiently, a
    wrapper performs [N + 1] invocations of [paidFetch], consecutive ones
    separated by exactly one sleep: [(attempt + 1) * 5000] ms in
    [safePaidFetch], which then rethrows the last error, and 3000 ms in
    [tryWithRetry], which then returns [null].  For [N = 3] the linear
    sleeps are 5000, 10000, 15000. *)
Theorem transient_failures_follow_backoff_schedule N path label opts w :
  ((forall j, (j <= N)%nat ->
      fails_retryable w (w_calls w + j) (build_request path opts)) ->
   exists e,
     attempt_outcome w (w_calls w + N) (build_request path opts) = Throw e
     /\ safePaidFetch path opts (Z.of_nat N) w =
        (Throw e,
         advance w (S N)
           (retry_schedule linear_backoff
              (fun i => attempt_events w i (build_request path opts))
              0 (w_calls w) N))
     /\ sleeps (retry_schedule linear_backoff
                  (fun i => attempt_events w i (build_request path opts))
                  0 (w_calls w) N)
        = map (fun i => (Z.of_nat i + 1) * 5000) (seq 0 N))
  /\
  ((forall j, (j <= N)%nat ->
      fails_timeout w (w_calls w + j) (build_request path None)) ->
   tryWithRetry path label (Z.of_nat N) w =
   (Ok None,
    advance w (S N)
      (retry_schedule fixed_backoff
         (fun i => attempt_events w i (build_request path None))
         0 (w_calls w) N))
   /\ sleeps (retry_schedule fixed_backoff
                (fun i => attempt_events w i (build_request path None))
                0 (w_calls w) N)
      = map (fun _ => 3000) (seq 0 N))
  /\ map (fun i => linear_backoff (Z.of_nat i)) (seq 0 3)
     = [5000; 10000; 15000].
Proof.
  split; [|split]; [intros Htr | intros Htr | reflexivity].
  - destruct (Htr N) as [e [He Hr]]; [lia|].
    exists e. split; [exact He|]. split.
    + rewrite (safePaidFetch_run N); try lia.
      * now rewrite He.
      * intros j Hj. apply Htr. lia.
      * rewrite He. simpl. now rewrite Z.ltb_irrefl.
    + rewrite sleeps_retry_schedule. reflexivity.
  - destruct (Htr N) as [e [He Hr]]; [lia|]. split.
    + rewrite (tryWithRetry_run N); try lia.
      * now rewrite He, Hr.
      * intros j Hj. apply Htr. lia.
      * rewrite He. simpl. rewrite Z.ltb_irrefl. apply andb_false_r.
    + rewrite sleeps_retry_schedule. reflexivity.
Qed.

(** From attempt [a <= retries] on, the loop of [safePaidFetch] leaves by
    [return] or by rethrowing the error it has just caught; it has then
    made at least one request and has not touched the accounting. *)
Lemma safePaidFetch_loop_leaves_inside m : forall fuel path opts retries a w,
  retries - a = Z.of_nat m ->
  (m < fuel)%nat ->
  exists w',
    (w_calls w < w_calls w')%nat /\
    totalCost w' = totalCost w /\
    callCount w' = callCount w /\
    (exists rest,
       w_trace w' =
       (w_trace w ++ EvFetch (build_request path opts) false :: rest)%list) /\
    ((exists r, safePaidFetch_loop fuel path opts retries a w
                = (Ok (Returned (mkSafe (data r) (price r))), w')
                /\ attempt_outcome w (pred (w_calls w'))
                     (build_request path opts) = Ok r)
     \/
     (exists e, safePaidFetch_loop fuel path opts retries a w = (Throw e, w')
                /\ attempt_outcome w (pred (w_calls w'))
                     (build_request path opts) = Throw e)).
Proof.
  induction m as [|m IH]; intros fuel path opts retries a w Hm Hfuel;
    (destruct fuel as [|fuel]; [lia|]);
    rewrite safePaidFetch_loop_step;
    (replace (a <=? retries) with true by (symmetry; apply Z.leb_le; lia));
    cbv zeta;
    destruct (attempt_events_shape w (w_calls w) (build_request path opts))
      as [tl [Hev _]];
    destruct (attempt_outcome_cases w (w_calls w) (build_request path opts))
      as [[r Hr]|[e He]];
    try (rewrite Hr; simpl;
         exists (advance w 1 (attempt_events w (w_calls w)
                                (build_request path opts)));
         simpl; rewrite Nat.add_1_r, Hev;
         repeat split; eauto; lia).
  - rewrite He. simpl.
    replace (a <? retries) with false by (symmetry; apply Z.ltb_ge; lia).
    simpl.
    exists (advance w 1 (attempt_events w (w_calls w)
                           (build_request path opts))).
    simpl; rewrite Nat.add_1_r, Hev. repeat split; eauto; lia.
  - rewrite He. simpl.
    destruct ((a <? retries) && isRetryable (message_or_string e)).
    + destruct (IH fuel path opts retries (a + 1)
                  (slept (advance w 1
                            (attempt_events w (w_calls w)
                               (build_request path opts)))
                         (linear_backoff a)))
        as [w' [Hc [Ht [Hn [[rest Htr] H]]]]]; try lia.
      exists w'. simpl in Hc, Ht, Hn, Htr.
      repeat split; [lia|exact Ht|exact Hn| |exact H].
      rewrite Htr, Hev. rewrite <- !app_assoc. simpl. eauto.
    + exists (advance w 1 (attempt_events w (w_calls w)
                             (build_request path opts))).
      simpl; rewrite Nat.add_1_r, Hev. repeat split; eauto; lia.
Qed.

(** With an integer budget that is not negative, the loop of
    [safePaidFetch] ends by returning a result or by throwing the error
    caught in its last attempt. *)
Lemma safePaidFetch_integer_budget_ends_inside retries path opts w :
  0 <= retries ->
  exists w',
    (exists r,
       safePaidFetch_loop (loop_fuel retries) path opts retries 0 w
       = (Ok (Returned r), w')
       /\ safePaidFetch path opts retries w = (Ok r, w'))
    \/
    (exists e,
       safePaidFetch_loop (loop_fuel retries) path opts retries 0 w
       = (Throw e, w')
       /\ attempt_outcome w (pred (w_calls w')) (build_request path opts)
          = Throw e
       /\ safePaidFetch path opts retries w = (Throw e, w')).
Proof.
  intros Hr.
  destruct (safePaidFetch_loop_leaves_inside (Z.to_nat retries)
              (loop_fuel retries) path opts retries 0 w)
    as [w' [_ [_ [_ [_ [[r [H _]]|[e [H He]]]]]]]];
    try (unfold loop_fuel; lia).
  - exists w'. left. eexists. split; [exact H|].
    unfold safePaidFetch, bind. now rewrite H.
  - exists w'. right. exists e. repeat split; auto.
    unfold safePaidFetch, bind. now rewrite H.
Qed.

Lemma tryWithRetry_loop_progress m : forall fuel path label retries a w,
  retries - a = Z.of_nat m ->
  (m < fuel)%nat ->
  (w_calls w <
   w_calls (snd (tryWithRetry_loop fuel path label retries a w)))%nat.
Proof.
  induction m as [|m IH]; intros fuel path label retries a w Hm Hfuel;
    (destruct fuel as [|fuel]; [lia|]);
    rewrite tryWithRetry_loop_step;
    (replace (a <=? retries) with true by (symmetry; apply Z.leb_le; lia));
    cbv zeta;
    destruct (try_goes_on retries a
                (attempt_outcome w (w_calls w) (build_request path None)))
      eqn:Hgo;
    try (destruct (0 <? a); simpl; lia).
  - unfold try_goes_on in Hgo.
    destruct (attempt_outcome w (w_calls w) (build_request path None));
      try discriminate.
    apply andb_true_iff in Hgo. destruct Hgo as [_ Hlt].
    apply Z.ltb_lt in Hlt. lia.
  - eapply Nat.lt_trans; [|apply IH; lia].
    destruct (0 <? a); simpl; lia.
Qed.

(** When attempts remain, an error classified as retryable is followed
    by a second invocation of [paidFetch]. *)
Lemma safePaidFetch_second_attempt retries path opts w e :
  1 <= retries ->
  attempt_outcome w (w_calls w) (build_request path opts) = Throw e ->
  isRetryable (message_or_string e) = true ->
  (w_calls w + 2 <= w_calls (snd (safePaidFetch path opts retries w)))%nat.
Proof.
  intros Hr He Hc. unfold safePaidFetch, bind, loop_fuel.
  rewrite safePaidFetch_loop_step.
  replace (0 <=? retries) with true by (symmetry; apply Z.leb_le; lia).
  cbv zeta. rewrite He. simpl safe_goes_on. rewrite Hc.
  replace (0 <? retries) with true by (symmetry; apply Z.ltb_lt; lia).
  simpl andb. cbv iota.
  match goal with
  | |- context [safePaidFetch_loop ?f ?p ?o ?r ?a ?w0] =>
    destruct (safePaidFetch_loop_leaves_inside (Z.to_nat (retries - 1))
                f p o r a w0)
      as [w' [Hlt [_ [_ [_ [[r0 [H _]]|[e0 [H _]]]]]]]]; try lia;
    rewrite H; simpl in Hlt |- *; lia
  end.
Qed.

Lemma tryWithRetry_second_attempt retries path label w e :
  1 <= retries ->
  attempt_outcome w (w_calls w) (build_request path None) = Throw e ->
  isTimeout (message_of_instance e) = true ->
  (w_calls w + 2 <=
   w_calls (snd (tryWithRetry path label retries w)))%nat.
Proof.
  intros Hr He Hc. unfold tryWithRetry, bind, loop_fuel.
  rewrite tryWithRetry_loop_step.
  replace (0 <=? retries) with true by (symmetry; apply Z.leb_le; lia).
  cbv zeta. rewrite He. simpl try_goes_on. rewrite Hc.
  replace (0 <? retries) with true by (symmetry; apply Z.ltb_lt; lia).
  simpl andb. cbv iota.
  match goal with
  | |- context [tryWithRetry_loop ?f ?p ?l ?r ?a ?w0] =>
    pose proof (tryWithRetry_loop_progress (Z.to_nat (retries - 1))
                  f p l r a w0) as Hlt;
    destruct (tryWithRetry_loop f p l r a w0) as [[x|x| |] w']
  end;
    simpl in Hlt |- *; try (destruct x; simpl); lia.
Qed.


(** What one [call] does: the counter goes up by one, the throttle sleep
    is taken when the counter was positive, the request is issued, and
    the price of the final successful exchange is added once. *)
Lemma call_cases label path opts w :
  exists w',
    callCount w' = callCount w + 1 /\
    (exists rest,
       w_trace w' =
       (w_trace w
        ++ (if 0 <? callCount w then [EvSleep CALL_DELAY_MS] else [])
        ++ EvFetch (build_request path opts) false :: rest)%list) /\
    ((exists r,
        call price_add label path opts w = (Ok (data r), w')
        /\ attempt_outcome w (pred (w_calls w')) (build_request path opts)
           = Ok r
        /\ totalCost w' = price_add (totalCost w) (price r))
     \/
     (exists e,
        call price_add label path opts w = (Throw e, w')
        /\ attempt_outcome w (pred (w_calls w')) (build_request path opts)
           = Throw e
        /\ totalCost w' = totalCost w)).
Proof.
  unfold call, bind, get_callCount, incr_callCount, safePaidFetch, bind.
  destruct (0 <? callCount w); cbn [sleep emit ret];
    match goal with
    | |- context [safePaidFetch_loop ?f ?p ?o ?r ?a ?w0] =>
      destruct (safePaidFetch_loop_leaves_inside 3 f p o r a w0)
        as [w' [_ [Ht [Hn [[rest Htr] [[r0 [H Ho]]|[e0 [H Ho]]]]]]]];
        try (unfold loop_fuel; simpl; lia);
        rewrite H; simpl in Ht, Hn, Htr, Ho |- *
    end.
  - eexists. split; [|split; [|left; exists r0; repeat split]];
      simpl; eauto.
    + rewrite Htr, <- app_assoc. simpl. eauto.
    + now rewrite Ht.
  - exists w'. split; [|split; [|right; exists e0; repeat split]]; eauto.
    rewrite Htr, <- app_assoc. simpl. eauto.
  - eexists. split; [|split; [|left; exists r0; repeat split]];
      simpl; eauto.
    now rewrite Ht.
  - exists w'. split; [|split; [|right; exists e0; repeat split]]; eauto.
Qed.

(** C4.  A [call] either returns, its last exchange being a success whose
    price, and nothing else, has been added to [totalCost]; or it throws
    the error of its last exchange and leaves [totalCost] as it was.
    Failed and retried attempts add nothing. *)
Theorem cost_charged_only_for_final_success label path opts w :
  exists w',
    (exists r,
       call price_add label path opts w = (Ok (data r), w')
       /\ attempt_outcome w (pred (w_calls w')) (build_request path opts)
          = Ok r
       /\ totalCost w' = price_add (totalCost w) (price r))
    \/
    (exists e,
       call price_add label path opts w = (Throw e, w')
       /\ attempt_outcome w (pred (w_calls w')) (build_request path opts)
          = Throw e
       /\ totalCost w' = totalCost w).
Proof.
  destruct (call_cases label path opts w) as [w' [_ [_ H]]].
  exists w'. exact H.
Qed.

(** C5, as the code has it.  [totalCost] changes only in a call that
    succeeds, once and by the price of its final exchange; [callCount]
    goes up by exactly one over every call, whether the call succeeds or
    fails. *)
Theorem accounting_updated_per_call label path opts w :
  callCount (snd (call price_add label path opts w)) = callCount w + 1
  /\ match fst (call price_add label path opts w) with
     | Ok d =>
       exists r,
         attempt_outcome w
           (pred (w_calls (snd (call price_add label path opts w))))
           (build_request path opts) = Ok r
         /\ d = data r
         /\ totalCost (snd (call price_add label path opts w))
            = price_add (totalCost w) (price r)
     | _ =>
       totalCost (snd (call price_add label path opts w)) = totalCost w
     end.
Proof.
  destruct (call_cases label path opts w)
    as [w' [Hn [_ [[r [H [Ho Ht]]]|[e [H [Ho Ht]]]]]]];
    rewrite H; simpl; split; eauto.
Qed.

(** C8.  The counter starting at zero or above: the first call of a run
    issues its request without delay, and after any call, whether it
    returned or threw, the next call sleeps 5000 ms and only then
    issues its request. *)
Theorem throttle_before_every_later_call
    label path opts label' path' opts' w :
  0 <= callCount w ->
  (callCount w = 0 ->
   exists rest,
     w_trace (snd (call price_add label path opts w)) =
     (w_trace w ++ EvFetch (build_request path opts) false :: rest)%list)
  /\
  exists rest,
    w_trace (snd (call price_add label' path' opts'
                    (snd (call price_add label path opts w)))) =
    (w_trace (snd (call price_add label path opts w))
     ++ EvSleep 5000
     :: EvFetch (build_request path' opts') false :: rest)%list.
Proof.
  intros Hc.
  destruct (call_cases label path opts w) as [w1 [Hn [[rest Htr] H1]]].
  assert (Hw1 : snd (call price_add label path opts w) = w1)
    by (destruct H1 as [[r [H _]]|[e [H _]]]; now rewrite H).
  rewrite Hw1. split.
  - intros H0. rewrite H0 in Htr. simpl in Htr. eauto.
  - destruct (call_cases label' path' opts' w1) as [w2 [_ [[rest' Htr'] H2]]].
    assert (Hw2 : snd (call price_add label' path' opts' w1) = w2)
      by (destruct H2 as [[r [H _]]|[e [H _]]]; now rewrite H).
    rewrite Hw2.
    replace (0 <? callCount w1) with true in Htr'
      by (symmetry; apply Z.ltb_lt; lia).
    simpl in Htr'. eauto.
Qed.

Lemma catch_null_paidFetch path w :
  catch_null (paidFetch path None) w =
  (Ok (settled (attempt_outcome w (w_calls w) (build_request path None))),
   advance w 1 (attempt_events w (w_calls w) (build_request path None))).
Proof.
  unfold catch_null, try_catch, bind. rewrite paidFetch_run.
  destruct (attempt_outcome_cases w (w_calls w) (build_request path None))
    as [[r H]|[e H]]; rewrite H; reflexivity.
Qed.

Lemma join_catching_run pathA pathB w :
  join_catching pathA pathB w =
  (Ok (settled (attempt_outcome w (w_calls w) (build_request pathA None)),
       settled (attempt_outcome w (S (w_calls w))
                  (build_request pathB None))),
   advance w 2
     (attempt_events w (w_calls w) (build_request pathA None)
      ++ attempt_events w (S (w_calls w)) (build_request pathB None))).
Proof.
  unfold join_catching, promise_all2.
  rewrite !catch_null_paidFetch.
  rewrite advance_advance.
  unfold attempt_outcome, attempt_events. cbn [w_net w_calls advance].
  rewrite Nat.add_1_r. reflexivity.
Qed.

(** C9.  In both scripts that fetch two endpoints in parallel, the join
    always resolves: each branch contributes its own result, or [null]
    when it failed, and both branches have run whatever the other one
    did.  So when one branch fails and the other succeeds, the join
    yields [null] and the successful result. *)
Theorem join_isolates_branch_failures w :
  let settle path k := settled (attempt_outcome w k (build_request path None)) in
  let events path k := attempt_events w k (build_request path None) in
  pressure_main w =
  (Ok (settle "/api/v1/hl/pressure/pairs" (w_calls w),
       settle "/api/v1/hl/pressure/summary" (S (w_calls w))),
   advance w 2
     (events "/api/v1/hl/pressure/pairs" (w_calls w)
      ++ events "/api/v1/hl/pressure/summary" (S (w_calls w))))
  /\
  bias_main w =
  (Ok (settle "/api/v1/hl/trades/whales?min_usd=50000&timeframe=24h&limit=200"
         (w_calls w),
       settle "/api/v1/hl/smart-wallets/signals?timeframe=7d&min_score=60&limit=50"
         (S (w_calls w))),
   advance w 2
     (events "/api/v1/hl/trades/whales?min_usd=50000&timeframe=24h&limit=200"
        (w_calls w)
      ++ events "/api/v1/hl/smart-wallets/signals?timeframe=7d&min_score=60&limit=50"
           (S (w_calls w)))).
Proof.
  split; [unfold pressure_main | unfold bias_main];
    apply join_catching_run.
Qed.

(** How the two matchers classify the message of a protocol error, for
    every status of up to three digits. *)
Lemma protocol_message_classified st :
  (st <= 999)%nat ->
  isRetryable ("Expected 402, got " ++ show_nat st) = safe_retried_status st
  /\ isTimeout ("Expected 402, got " ++ show_nat st) = try_retried_status st.
Proof.
  intros Hst.
  assert (Hall :
    forallb (fun n =>
      Bool.eqb (isRetryable ("Expected 402, got " ++ show_nat n))
               (safe_retried_status n)
      && Bool.eqb (isTimeout ("Expected 402, got " ++ show_nat n))
                  (try_retried_status n)) (seq 0 1000) = true)
    by (vm_compute; reflexivity).
  rewrite forallb_forall in Hall.
  specialize (Hall st). rewrite in_seq in Hall.
  apply andb_true_iff in Hall; [|lia].
  destruct Hall as [H1 H2].
  split; now apply Bool.eqb_prop.
Qed.

Lemma protocol_error_outcome w k (req : request) st :
  ex_initial (w_net w k req) = inr st ->
  st <> 402%nat ->
  attempt_outcome w k req
  = Throw (ErrorObj ("Expected 402, got " ++ show_nat st))
  /\ attempt_events w k req = [EvFetch req false].
Proof.
  intros Hi Hst. unfold attempt_outcome, attempt_events, paidFetch_core.
  rewrite Hi.
  replace (st =? 402)%nat with false
    by (symmetry; now apply Nat.eqb_neq).
  split; reflexivity.
Qed.


Lemma run_primary_success w r w1 :
  tryWithRetry PRIMARY "opportunities" 1 w = (Ok (Some r), w1) ->
  run_select w = (Ok (PRIMARY, Some r), w1)
  /\ run w = (Ok (PRIMARY, r), w1).
Proof.
  intros H. unfold run, bind, run_select, bind. now rewrite H.
Qed.

Lemma run_primary_throws w e w1 :
  tryWithRetry PRIMARY "opportunities" 1 w = (Throw e, w1) ->
  run_select w = (Throw e, w1) /\ run w = (Throw e, w1).
Proof.
  intros H. unfold run, bind, run_select, bind. now rewrite H.
Qed.

Lemma run_primary_exhausted w w1 :
  tryWithRetry PRIMARY "opportunities" 1 w = (Ok None, w1) ->
  (forall r w2,
     tryWithRetry FALLBACK "high-conviction" 1 w1 = (Ok (Some r), w2) ->
     run_select w = (Ok (FALLBACK, Some r), w2)
     /\ run w = (Ok (FALLBACK, r), w2))
  /\ (forall e w2,
        tryWithRetry FALLBACK "high-conviction" 1 w1 = (Throw e, w2) ->
        run_select w = (Throw e, w2) /\ run w = (Throw e, w2))
  /\ (forall w2,
        tryWithRetry FALLBACK "high-conviction" 1 w1 = (Ok None, w2) ->
        run_select w = (Ok (FALLBACK, None), w2)
        /\ run w = (Exit 1, w2)).
Proof.
  intros H. repeat split; intros;
    unfold run, bind, run_select, bind; rewrite H;
    match goal with Hf : tryWithRetry FALLBACK _ _ _ = _ |- _ =>
      now rewrite Hf end.
Qed.

(** C7.  [run] tries the primary endpoint, then the fallback, each with
    one retry.  It stops at the first success of the primary; a
    non-transient failure of the primary is thrown at once and the
    fallback is never requested; the fallback is tried when both attempts
    on the primary failed transiently, with the same rules; and when all
    four attempts failed transiently, [result] is [null], nothing is
    thrown, and [run] ends the process with status 1. *)
Theorem fallback_routing_in_order w :
  let c := w_calls w in
  let P := build_request PRIMARY None in
  let F := build_request FALLBACK None in
  let afterP k :=
    advance w (S k)
      (retry_schedule fixed_backoff (fun i => attempt_events w i P) 0 c k) in
  let afterF k :=
    advance (afterP 1%nat) (S k)
      (retry_schedule fixed_backoff (fun i => attempt_events w i F)
         0 (c + 2) k) in
  (forall k r,
     (k <= 1)%nat ->
     (forall j, (j < k)%nat -> fails_timeout w (c + j) P) ->
     attempt_outcome w (c + k) P = Ok r ->
     run_select w = (Ok (PRIMARY, Some r), afterP k)
     /\ run w = (Ok (PRIMARY, r), afterP k))
  /\
  (forall k e,
     (k <= 1)%nat ->
     (forall j, (j < k)%nat -> fails_timeout w (c + j) P) ->
     attempt_outcome w (c + k) P = Throw e ->
     isTimeout (message_of_instance e) = false ->
     run_select w = (Throw e, afterP k) /\ run w = (Throw e, afterP k))
  /\
  (fails_timeout w c P ->
   fails_timeout w (c + 1) P ->
   (forall k r,
      (k <= 1)%nat ->
      (forall j, (j < k)%nat -> fails_timeout w (c + 2 + j) F) ->
      attempt_outcome w (c + 2 + k) F = Ok r ->
      run_select w = (Ok (FALLBACK, Some r), afterF k)
      /\ run w = (Ok (FALLBACK, r), afterF k))
   /\
   (forall k e,
      (k <= 1)%nat ->
      (forall j, (j < k)%nat -> fails_timeout w (c + 2 + j) F) ->
      attempt_outcome w (c + 2 + k) F = Throw e ->
      isTimeout (message_of_instance e) = false ->
      run_select w = (Throw e, afterF k) /\ run w = (Throw e, afterF k))
   /\
   (fails_timeout w (c + 2) F ->
    fails_timeout w (c + 3) F ->
    run_select w = (Ok (FALLBACK, None), afterF 1%nat)
    /\ run w = (Exit 1, afterF 1%nat))).
Proof.
  intros c P F afterP afterF. split; [|split].
  - intros k r Hk Htr Ho. apply run_primary_success.
    rewrite (tryWithRetry_run k); try lia; fold P; fold c.
    + now rewrite Ho.
    + exact Htr.
    + now rewrite Ho.
  - intros k e Hk Htr Ho Hnt. apply run_primary_throws.
    rewrite (tryWithRetry_run k); try lia; fold P; fold c.
    + now rewrite Ho, Hnt.
    + exact Htr.
    + rewrite Ho. simpl. now rewrite Hnt.
  - intros H0 H1.
    assert (HP : tryWithRetry PRIMARY "opportunities" 1 w
                 = (Ok None, afterP 1%nat)).
    { rewrite (tryWithRetry_run 1); try lia; fold P; fold c.
      - destruct H1 as [e [-> He]]. now rewrite He.
      - intros j Hj. replace j with 0%nat by lia.
        now rewrite Nat.add_0_r.
      - destruct H1 as [e [-> He]]. simpl. apply andb_false_r. }
    destruct (run_primary_exhausted w _ HP) as [Hok [Hthrow Hnull]].
    assert (Hrun : forall k,
      (k <= 1)%nat ->
      (forall j, (j < k)%nat -> fails_timeout w (c + 2 + j) F) ->
      try_goes_on 1 (Z.of_nat k) (attempt_outcome w (c + 2 + k) F) = false ->
      tryWithRetry FALLBACK "high-conviction" 1 (afterP 1%nat) =
      (match attempt_outcome w (c + 2 + k) F with
       | Ok r => Ok (Some r)
       | Throw e =>
         if isTimeout (message_of_instance e) then Ok None else Throw e
       | Exit x => Exit x
       | Diverged => Diverged
       end, afterF k)).
    { intros k Hk Htr Hfin. rewrite (tryWithRetry_run k); try lia.
      - reflexivity.
      - exact Htr.
      - exact Hfin. }
    split; [|split].
    + intros k r Hk Htr Ho. apply Hok.
      rewrite (Hrun k Hk Htr); rewrite Ho; reflexivity.
    + intros k e Hk Htr Ho Hnt. apply Hthrow.
      rewrite (Hrun k Hk Htr); rewrite Ho; simpl; now rewrite Hnt.
    + intros H2 H3. apply Hnull.
      rewrite (Hrun 1%nat).
      * replace (c + 2 + 1)%nat with (c + 3)%nat by lia.
        destruct H3 as [e [-> He]]. now rewrite He.
      * lia.
      * intros j Hj. replace j with 0%nat by lia.
        now rewrite Nat.add_0_r.
      * replace (c + 2 + 1)%nat with (c + 3)%nat by lia.
        destruct H3 as [e [-> He]]. simpl. apply andb_false_r.
Qed.

End Properties.

(* ------------------------------------------------------------------ *)
(** ** The theorems at concrete worlds *)

Lemma nontransient_failure_propagates_at_once_witness :
  let w := scripted [ex_initial_status 504] (ex_initial_status 404) in
  let e := ErrorObj "Expected 402, got 404" in
  safePaidFetch "/x" None 3 w =
  (Throw e,
   advance w 2
     (retry_schedule linear_backoff
        (fun i => attempt_events w i (build_request "/x" None)) 0 0 1))
  /\
  tryWithRetry "/x" "x" 3 w =
  (Throw e,
   advance w 2
     (retry_schedule fixed_backoff
        (fun i => attempt_events w i (build_request "/x" None)) 0 0 1)).
Proof.
  intros w e.
  destruct (nontransient_failure_propagates_at_once string string Z
              1 3 "/x" "x" None w e) as [Hs Ht]; [lia|].
  split; [apply Hs | apply Ht]; try reflexivity;
    intros j Hj; replace j with 0%nat by lia;
    eexists; split; reflexivity.
Defined.

Lemma transient_failures_follow_backoff_schedule_witness :
  let w := always (ex_paid_status 504 "Gateway Time-out") in
  (exists e,
     safePaidFetch "/x" None 3 w =
     (Throw e,
      advance w 4
        (retry_schedule linear_backoff
           (fun i => attempt_events w i (build_request "/x" None)) 0 0 3)))
  /\ sleeps (w_trace (snd (safePaidFetch "/x" None 3 w)))
     = [5000; 10000; 15000]
  /\ fst (tryWithRetry "/x" "x" 3 w) = Ok None
  /\ sleeps (w_trace (snd (tryWithRetry "/x" "x" 3 w))) = [3000; 3000; 3000].
Proof.
  intros w.
  destruct (transient_failures_follow_backoff_schedule string string Z
              3 "/x" "x" None w) as [Hs [Ht _]].
  destruct Hs as [e [_ [Hs _]]];
    [intros j _; eexists; split; reflexivity|].
  destruct Ht as [Ht _];
    [intros j _; eexists; split; reflexivity|].
  change (Z.of_nat 3) with 3 in Hs, Ht.
  split; [exists e; exact Hs|].
  rewrite Hs, Ht. repeat split.
Defined.



Lemma fallback_routing_in_order_witness :
  let w := always (ex_initial_status 504) in
  run_select w =
  (Ok (FALLBACK, None),
   advance
     (advance w 2
        (retry_schedule fixed_backoff
           (fun i => attempt_events w i (build_request PRIMARY None)) 0 0 1))
     2
     (retry_schedule fixed_backoff
        (fun i => attempt_events w i (build_request FALLBACK None)) 0 2 1))
  /\
  run w =
  (Exit 1,
   advance
     (advance w 2
        (retry_schedule fixed_backoff
           (fun i => attempt_events w i (build_request PRIMARY None)) 0 0 1))
     2
     (retry_schedule fixed_backoff
        (fun i => attempt_events w i (build_request FALLBACK None)) 0 2 1)).
Proof.
  intros w.
  destruct (fallback_routing_in_order string string Z w) as [_ [_ H]].
  assert (Hfail : forall k path,
            fails_timeout w k (build_request path None))
    by (intros k path; eexists; split; reflexivity).
  destruct (H (Hfail _ _) (Hfail _ _)) as [_ [_ Hnull]].
  exact (Hnull (Hfail _ _) (Hfail _ _)).
Defined.

Lemma throttle_before_every_later_call_witness :
  let w := scripted [ex_initial_status 404] (ex_ok 10000 "[]") in
  exists rest,
    w_trace (snd (call Z.add "two" "/b" None
                    (snd (call Z.add "one" "/a" None w)))) =
    (w_trace (snd (call Z.add "one" "/a" None w))
     ++ EvSleep 5000 :: EvFetch (build_request "/b" None) false :: rest)%list.
Proof.
  intros w.
  destruct (throttle_before_every_later_call string string Z Z.add
              "one" "/a" None "two" "/b" None w) as [_ H].
  - simpl. lia.
  - exact H.
Defined.

(* ------------------------------------------------------------------ *)
(** ** Where the specification and the code part *)


(** C5: a call that fails has nevertheless been counted. *)
Lemma failed_call_is_counted :
  let w := always (ex_initial_status 404) in
  callCount w = 0
  /\ fst (call Z.add "one" "/a" None w)
     = Throw (ErrorObj "Expected 402, got 404")
  /\ callCount (snd (call Z.add "one" "/a" None w)) = 1.
Proof. vm_compute. repeat split. Qed.


(* ------------------------------------------------------------------ *)
(** ** Scenarios *)

(** One retry, constant 3000 ms: a gateway timeout, then a success. *)
Example retry_once_then_success :
  let w := scripted [ex_paid_status 504 "Gateway Time-out"]
                    (ex_ok 10000 "[]") in
  fst (tryWithRetry "/x" "x" 1 w) = Ok (Some (mkResult "[]" "tx" 10000))
  /\ sleeps (w_trace (snd (tryWithRetry "/x" "x" 1 w))) = [3000]
  /\ w_calls (snd (tryWithRetry "/x" "x" 1 w)) = 2%nat.
Proof. vm_compute. repeat split. Qed.

(** The primary endpoint times out twice, the fallback answers. *)
Example fallback_after_two_timeouts :
  let w := scripted [ex_initial_status 504; ex_paid_status 503 ""]
                    (ex_ok 20000 "[1]") in
  fst (run w) = Ok (FALLBACK, mkResult "[1]" "tx" 20000)
  /\ w_calls (snd (run w)) = 3%nat.
Proof. vm_compute. repeat split. Qed.

(** A negative retry count goes straight to the trailing throw. *)
Example negative_retries_reach_the_trailing_throw :
  safePaidFetch "/x" None (-1) (always (ex_ok 10000 "[]"))
  = (Throw (ErrorObj "unreachable"), always (ex_ok 10000 "[]")).
Proof. reflexivity. Qed.

(** Two calls, the first one failing on a rejected request: the second
    is throttled all the same, and only its price is accounted. *)
Example second_call_throttled_and_charged :
  let w := scripted [ex_paid_status 400 "bad request"] (ex_ok 10000 "[]") in
  let w2 := snd (call Z.add "two" "/b" None
                   (snd (call Z.add "one" "/a" None w))) in
  sleeps (w_trace w2) = [5000]
  /\ totalCost w2 = 10000
  /\ callCount w2 = 2.
Proof. vm_compute. repeat split. Qed.

(** One branch of the join fails, the other one succeeds. *)
Example join_with_one_failed_branch :
  fst (pressure_main (scripted [ex_initial_status 500] (ex_ok 20000 "{}")))
  = Ok (None, Some (mkResult "{}" "tx" 20000)).
Proof. reflexivity. Qed.

(* ------------------------------------------------------------------ *)
(** ** Further properties of the helpers *)

Lemma prefix_app_l (sub a b : string) :
  String.prefix sub a = true -> String.prefix sub (a ++ b) = true.
Proof.
  revert a. induction sub as [|c sub IH]; intros a H.
  - destruct (a ++ b); reflexivity.
  - destruct a as [|c' a]; simpl in *; [discriminate|].
    destruct (ascii_dec c c'); [apply IH; exact H|discriminate].
Qed.

Lemma includes_app_l (a b sub : string) :
  includes a sub = true -> includes (a ++ b) sub = true.
Proof.
  induction a as [|c a IH]; cbn [includes append]; intros H.
  - rewrite orb_false_r in H. destruct sub; [|discriminate].
    destruct b; reflexivity.
  - apply orb_true_iff in H. destruct H as [H|H].
    + apply (prefix_app_l sub (String c a) b) in H.
      cbn [append] in H. rewrite H. reflexivity.
    + rewrite (IH H). apply orb_true_r.
Qed.

Lemma includes_app_r (a b sub : string) :
  includes b sub = true -> includes (a ++ b) sub = true.
Proof.
  intros H. induction a as [|c a IH]; cbn [includes append]; [exact H|].
  rewrite IH. apply orb_true_r.
Qed.

Lemma isRetryable_app_l (a b : string) :
  isRetryable a = true -> isRetryable (a ++ b) = true.
Proof.
  unfold isRetryable. intros H.
  repeat (apply orb_true_iff in H; destruct H as [H|H]);
    rewrite (includes_app_l _ b _ H); rewrite ?orb_true_r; reflexivity.
Qed.

Lemma isRetryable_app_r (a b : string) :
  isRetryable b = true -> isRetryable (a ++ b) = true.
Proof.
  unfold isRetryable. intros H.
  repeat (apply orb_true_iff in H; destruct H as [H|H]);
    rewrite (includes_app_r a _ _ H); rewrite ?orb_true_r; reflexivity.
Qed.

Lemma js_substring0_prefix n : forall s,
  String.prefix (js_substring0 n s) s = true.
Proof.
  unfold js_substring0. induction n as [|n IH]; intros s.
  - destruct s; reflexivity.
  - destruct s as [|c s]; simpl; [reflexivity|].
    destruct (ascii_dec c c); [apply IH|congruence].
Qed.

Lemma js_substring0_length n : forall s,
  String.length (js_substring0 n s) = Nat.min n (String.length s).
Proof.
  unfold js_substring0. induction n as [|n IH]; intros s.
  - destruct s; reflexivity.
  - destruct s as [|c s]; simpl; [reflexivity|]. now rewrite IH.
Qed.

Section HelperProperties.

Variables Payload Settlement Price : Type.
Variable price_add : Price -> Price -> Price.

Local Abbreviation W := (World Payload Settlement Price).
Local Abbreviation result := (call_result Payload Settlement Price).
Local Abbreviation xchg := (exchange Payload Settlement Price).

Implicit Types (w : W) (path label : string) (opts : option fetch_options)
  (retries a : Z) (k fuel : nat) (req : request) (ex : xchg).

(** X1.  [paidFetch] resolves exactly when the first response is a 402,
    the quote is read and signed, the resend is answered with 200 and the
    paid body parses; the result then carries the quoted price and the
    parsed data and settlement. *)
Theorem paidFetch_resolves_iff req ex (r : result) :
  fst (paidFetch_core req ex) = Ok r <->
  ex_initial ex = inr 402%nat
  /\ ex_quote ex = inr (price r)
  /\ (exists text, ex_paid ex = inr (200%nat, text))
  /\ ex_body ex = inr (data r, settlement r).
Proof.
  unfold paidFetch_core. split.
  - destruct (ex_initial ex) as [e|st]; [discriminate|].
    destruct (st =? 402)%nat eqn:Hst; simpl; [|discriminate].
    apply Nat.eqb_eq in Hst. subst st.
    destruct (ex_quote ex) as [e|p]; [discriminate|].
    destruct (ex_paid ex) as [e|[ps pt]]; [discriminate|].
    destruct (ps =? 200)%nat eqn:Hps; simpl; [|discriminate].
    apply Nat.eqb_eq in Hps. subst ps.
    destruct (ex_body ex) as [e|[d s]]; [discriminate|].
    intros H. injection H as <-. simpl. eauto.
  - intros [Hi [Hq [[text Hp] Hb]]]. rewrite Hi, Hq, Hp, Hb. simpl.
    destruct r; reflexivity.
Qed.

(** X2.  [paidFetch] issues the unpaid request first and at most one
    more request; the request carrying the payment is sent exactly when
    the first response was a 402 and the quote was read and signed. *)
Theorem payment_sent_only_after_quote req ex :
  (snd (paidFetch_core req ex) = [EvFetch req false]
   \/ snd (paidFetch_core req ex) = [EvFetch req false; EvFetch req true])
  /\ (In (EvFetch req true) (snd (paidFetch_core req ex)) <->
      ex_initial ex = inr 402%nat /\ exists p, ex_quote ex = inr p).
Proof.
  unfold paidFetch_core.
  destruct (ex_initial ex) as [e|st].
  { simpl. split; [auto|]. split.
    - intros [H|[]]. discriminate.
    - intros [H _]. discriminate. }
  destruct (st =? 402)%nat eqn:Hst; simpl.
  2:{ split; [auto|]. split.
      - intros [H|[]]. discriminate.
      - intros [H _]. injection H as ->. discriminate. }
  apply Nat.eqb_eq in Hst. subst st.
  destruct (ex_quote ex) as [e|p].
  { simpl. split; [auto|]. split.
    - intros [H|[]]. discriminate.
    - intros [_ [p H]]. discriminate. }
  assert (Hev : forall o : outcome result,
            snd (o, [EvFetch req false; EvFetch req true])
            = [EvFetch req false; EvFetch req true]) by reflexivity.
  destruct (ex_paid ex) as [e|[ps pt]];
    [|destruct (negb (ps =? 200)%nat);
      [|destruct (ex_body ex) as [e|[d s]]]];
    simpl; (split; [auto|]); (split; [eauto|intros _; auto]).
Qed.

(** X3.  When the resend is answered with a status other than 200,
    [paidFetch] rejects with an [Error] whose message names that status
    and quotes the start of the response body, 500 characters at most. *)
Theorem payment_failure_message req ex (p : Price) st text :
  ex_initial ex = inr 402%nat ->
  ex_quote ex = inr p ->
  ex_paid ex = inr (st, text) ->
  st <> 200%nat ->
  exists excerpt,
    fst (paidFetch_core req ex)
    = Throw (ErrorObj ("Payment failed (" ++ show_nat st ++ "): "
                       ++ excerpt))
    /\ String.prefix excerpt text = true
    /\ String.length excerpt = Nat.min 500 (String.length text).
Proof.
  intros Hi Hq Hp Hst. exists (js_substring0 500 text).
  unfold paidFetch_core. rewrite Hi, Hq, Hp.
  replace (st =? 200)%nat with false by (symmetry; now apply Nat.eqb_neq).
  simpl fst. split; [reflexivity|].
  split; [apply js_substring0_prefix|apply js_substring0_length].
Qed.

(** X4.  A failed payment is retried by [safePaidFetch] not only for the
    statuses 429, 500, 503 and 504 but whenever the quoted start of the
    response body contains one of the signals, whatever the status. *)
Theorem payment_failure_retryable_by_body w k req (p : Price) st text :
  ex_initial (w_net w k req) = inr 402%nat ->
  ex_quote (w_net w k req) = inr p ->
  ex_paid (w_net w k req) = inr (st, text) ->
  st <> 200%nat ->
  safe_retried_status st = true
  \/ isRetryable (js_substring0 500 text) = true ->
  fails_retryable w k req.
Proof.
  intros Hi Hq Hp Hst Hsig.
  exists (ErrorObj ("Payment failed (" ++ show_nat st ++ "): "
                    ++ js_substring0 500 text)).
  split.
  - unfold attempt_outcome, paidFetch_core. rewrite Hi, Hq, Hp.
    replace (st =? 200)%nat with false by (symmetry; now apply Nat.eqb_neq).
    reflexivity.
  - unfold message_or_string. apply isRetryable_app_r.
    destruct Hsig as [Hs|Hb].
    + apply isRetryable_app_l. unfold safe_retried_status in Hs.
      repeat (apply orb_true_iff in Hs; destruct Hs as [Hs|Hs]);
        apply Nat.eqb_eq in Hs; subst st; reflexivity.
    + do 2 apply isRetryable_app_r. exact Hb.
Qed.

(** X5.  Recovery: when [k] attempts, [k] within the budget, fail
    transiently and the next one succeeds, both wrappers return that
    attempt's result after [k + 1] invocations spaced by their backoff;
    [safePaidFetch] keeps the data and the price and drops the
    settlement. *)
Theorem retry_recovers_after_transient_failures
    k retries path label opts w (r : result) :
  Z.of_nat k <= retries ->
  ((forall j, (j < k)%nat ->
      fails_retryable w (w_calls w + j) (build_request path opts)) ->
   attempt_outcome w (w_calls w + k) (build_request path opts) = Ok r ->
   safePaidFetch path opts retries w =
   (Ok (mkSafe (data r) (price r)),
    advance w (S k)
      (retry_schedule linear_backoff
         (fun i => attempt_events w i (build_request path opts))
         0 (w_calls w) k)))
  /\
  ((forall j, (j < k)%nat ->
      fails_timeout w (w_calls w + j) (build_request path None)) ->
   attempt_outcome w (w_calls w + k) (build_request path None) = Ok r ->
   tryWithRetry path label retries w =
   (Ok (Some r),
    advance w (S k)
      (retry_schedule fixed_backoff
         (fun i => attempt_events w i (build_request path None))
         0 (w_calls w) k))).
Proof.
  intros Hle. split; intros Htr Ho.
  - rewrite (safePaidFetch_run _ _ _ k); auto; now rewrite Ho.
  - rewrite (tryWithRetry_run _ _ _ k); auto; now rewrite Ho.
Qed.

(** Among the attempts [a .. a + n], [a + n] being the last one allowed,
    there is a first one after which [safePaidFetch] does not go on. *)
Lemma safe_decisive_attempt n : forall retries a w c req,
  a + Z.of_nat n = retries ->
  exists k,
    (k <= n)%nat
    /\ (forall j, (j < k)%nat -> fails_retryable w (c + j) req)
    /\ safe_goes_on retries (a + Z.of_nat k)
         (attempt_outcome w (c + k) req) = false.
Proof.
  induction n as [|n IH]; intros retries a w c req Hn.
  - exists 0%nat. split; [lia|]. split; [intros j Hj; lia|].
    rewrite Z.add_0_r, Nat.add_0_r. unfold safe_goes_on.
    destruct (attempt_outcome w c req); try reflexivity.
    replace (a <? retries) with false by (symmetry; apply Z.ltb_ge; lia).
    reflexivity.
  - destruct (safe_goes_on retries a (attempt_outcome w c req)) eqn:Hgo.
    + destruct (IH retries (a + 1) w (S c) req) as [k [Hk [Htr Hfin]]];
        [lia|].
      exists (S k). split; [lia|]. split.
      * intros j Hj. destruct j as [|j].
        -- rewrite Nat.add_0_r. unfold safe_goes_on in Hgo.
           destruct (attempt_outcome w c req) as [r|e| |] eqn:Ho;
             try discriminate.
           exists e. split; [exact Ho|].
           apply andb_true_iff in Hgo. tauto.
        -- rewrite Nat.add_succ_r. apply (Htr j). lia.
      * rewrite Nat.add_succ_r.
        replace (a + Z.of_nat (S k)) with (a + 1 + Z.of_nat k) by lia.
        exact Hfin.
    + exists 0%nat. split; [lia|]. split; [intros j Hj; lia|].
      now rewrite Z.add_0_r, Nat.add_0_r.
Qed.

Lemma try_decisive_attempt n : forall retries a w c req,
  a + Z.of_nat n = retries ->
  exists k,
    (k <= n)%nat
    /\ (forall j, (j < k)%nat -> fails_timeout w (c + j) req)
    /\ try_goes_on retries (a + Z.of_nat k)
         (attempt_outcome w (c + k) req) = false.
Proof.
  induction n as [|n IH]; intros retries a w c req Hn.
  - exists 0%nat. split; [lia|]. split; [intros j Hj; lia|].
    rewrite Z.add_0_r, Nat.add_0_r. unfold try_goes_on.
    destruct (attempt_outcome w c req); try reflexivity.
    replace (a <? retries) with false by (symmetry; apply Z.ltb_ge; lia).
    apply andb_false_r.
  - destruct (try_goes_on retries a (attempt_outcome w c req)) eqn:Hgo.
    + destruct (IH retries (a + 1) w (S c) req) as [k [Hk [Htr Hfin]]];
        [lia|].
      exists (S k). split; [lia|]. split.
      * intros j Hj. destruct j as [|j].
        -- rewrite Nat.add_0_r. unfold try_goes_on in Hgo.
           destruct (attempt_outcome w c req) as [r|e| |] eqn:Ho;
             try discriminate.
           exists e. split; [exact Ho|].
           apply andb_true_iff in Hgo. tauto.
        -- rewrite Nat.add_succ_r. apply (Htr j). lia.
      * rewrite Nat.add_succ_r.
        replace (a + Z.of_nat (S k)) with (a + 1 + Z.of_nat k) by lia.
        exact Hfin.
    + exists 0%nat. split; [lia|]. split; [intros j Hj; lia|].
      now rewrite Z.add_0_r, Nat.add_0_r.
Qed.

(** Every run of [safePaidFetch] is a number of retryable failures
    followed by one attempt that decides. *)
Lemma safePaidFetch_shape retries path opts w :
  0 <= retries ->
  exists k,
    Z.of_nat k <= retries
    /\ (forall j, (j < k)%nat ->
          fails_retryable w (w_calls w + j) (build_request path opts))
    /\ safe_goes_on retries (Z.of_nat k)
         (attempt_outcome w (w_calls w + k) (build_request path opts))
       = false
    /\ safePaidFetch path opts retries w =
       (match attempt_outcome w (w_calls w + k) (build_request path opts)
        with
        | Ok r => Ok (mkSafe (data r) (price r))
        | Throw e => Throw e
        | Exit c => Exit c
        | Diverged => Diverged
        end,
        advance w (S k)
          (retry_schedule linear_backoff
             (fun i => attempt_events w i (build_request path opts))
             0 (w_calls w) k)).
Proof.
  intros Hr.
  destruct (safe_decisive_attempt (Z.to_nat retries) retries 0 w (w_calls w)
              (build_request path opts)) as [k [Hk [Htr Hfin]]]; [lia|].
  exists k. rewrite Z.add_0_l in Hfin.
  repeat split; [lia|exact Htr|exact Hfin|].
  apply safePaidFetch_run; [lia|exact Htr|exact Hfin].
Qed.

Lemma tryWithRetry_shape retries path label w :
  0 <= retries ->
  exists k,
    Z.of_nat k <= retries
    /\ (forall j, (j < k)%nat ->
          fails_timeout w (w_calls w + j) (build_request path None))
    /\ try_goes_on retries (Z.of_nat k)
         (attempt_outcome w (w_calls w + k) (build_request path None))
       = false
    /\ tryWithRetry path label retries w =
       (match attempt_outcome w (w_calls w + k) (build_request path None)
        with
        | Ok r => Ok (Some r)
        | Throw e =>
          if isTimeout (message_of_instance e) then Ok None else Throw e
        | Exit c => Exit c
        | Diverged => Diverged
        end,
        advance w (S k)
          (retry_schedule fixed_backoff
             (fun i => attempt_events w i (build_request path None))
             0 (w_calls w) k)).
Proof.
  intros Hr.
  destruct (try_decisive_attempt (Z.to_nat retries) retries 0 w (w_calls w)
              (build_request path None)) as [k [Hk [Htr Hfin]]]; [lia|].
  exists k. rewrite Z.add_0_l in Hfin.
  repeat split; [lia|exact Htr|exact Hfin|].
  apply tryWithRetry_run; [lia|exact Htr|exact Hfin].
Qed.

(** Invocations and sleeps of [safePaidFetch] at an integer budget. *)
Lemma safePaidFetch_integer_budget_bounds retries path opts w :
  0 <= retries ->
  exists k,
    Z.of_nat k <= retries
    /\ w_calls (snd (safePaidFetch path opts retries w))
       = (w_calls w + S k)%nat
    /\ sleeps (w_trace (snd (safePaidFetch path opts retries w)))
       = (sleeps (w_trace w) ++ linear_sleeps k)%list.
Proof.
  intros Hr.
  destruct (safePaidFetch_shape retries path opts w Hr)
    as [k [Hk [_ [_ Hrun]]]].
  exists k. rewrite Hrun. simpl.
  repeat split; [exact Hk|].
  rewrite sleeps_app, sleeps_retry_schedule. reflexivity.
Qed.

(** X7.  The same for [tryWithRetry]: at most [retries + 1] invocations,
    separated by sleeps of 3000 ms each. *)
Theorem tryWithRetry_attempts_bounded retries path label w :
  0 <= retries ->
  exists k,
    Z.of_nat k <= retries
    /\ w_calls (snd (tryWithRetry path label retries w))
       = (w_calls w + S k)%nat
    /\ sleeps (w_trace (snd (tryWithRetry path label retries w)))
       = (sleeps (w_trace w) ++ repeat 3000 k)%list.
Proof.
  intros Hr.
  destruct (tryWithRetry_shape retries path label w Hr)
    as [k [Hk [_ [_ Hrun]]]].
  exists k. rewrite Hrun. simpl.
  repeat split; [exact Hk|].
  rewrite sleeps_app, sleeps_retry_schedule. f_equal.
  clear. generalize 0%nat. induction k as [|k IH]; intros n; simpl;
    [reflexivity|now rewrite IH].
Qed.

(** X8.  With a negative budget neither wrapper makes a request:
    [safePaidFetch] throws its "unreachable" error and [tryWithRetry]
    returns [null], the world being untouched. *)
Theorem negative_retries_make_no_request retries path label opts w :
  retries < 0 ->
  safePaidFetch path opts retries w = (Throw (ErrorObj "unreachable"), w)
  /\ tryWithRetry path label retries w = (Ok None, w).
Proof.
  intros Hr. unfold safePaidFetch, tryWithRetry, bind, loop_fuel.
  rewrite safePaidFetch_loop_step, tryWithRetry_loop_step.
  replace (0 <=? retries) with false by (symmetry; apply Z.leb_gt; lia).
  split; reflexivity.
Qed.

(** X9.  [tryWithRetry] with budget [N] returns [null] exactly when all
    [N + 1] attempts fail with an error it classifies as a timeout. *)
Theorem tryWithRetry_null_iff_all_time_out N path label w :
  fst (tryWithRetry path label (Z.of_nat N) w) = Ok None <->
  forall j, (j <= N)%nat ->
    fails_timeout w (w_calls w + j) (build_request path None).
Proof.
  split.
  - intros Hnull.
    destruct (tryWithRetry_shape (Z.of_nat N) path label w)
      as [k [Hk [Htr [Hfin Hrun]]]]; [lia|].
    rewrite Hrun in Hnull. simpl in Hnull.
    destruct (attempt_outcome w (w_calls w + k) (build_request path None))
      as [r|e| |] eqn:Ho; try discriminate.
    destruct (isTimeout (message_of_instance e)) eqn:Ht; [|discriminate].
    unfold try_goes_on in Hfin. rewrite Ht in Hfin. simpl in Hfin.
    apply Z.ltb_ge in Hfin. assert (k = N) by lia. subst k.
    intros j Hj. destruct (Nat.eq_dec j N) as [->|Hne].
    + exists e. split; assumption.
    + apply Htr. lia.
  - intros Hall. destruct (Hall N) as [e [He Ht]]; [lia|].
    rewrite (tryWithRetry_run _ _ _ N); try lia.
    + rewrite He, Ht. reflexivity.
    + intros j Hj. apply Hall. lia.
    + rewrite He. unfold try_goes_on. rewrite Z.ltb_irrefl.
      apply andb_false_r.
Qed.

(** X10.  What [tryWithRetry] throws is never a failure it classifies as
    a timeout: it is the error of the last attempt made, and that error
    carries none of the three signals. *)
Theorem tryWithRetry_throws_only_nontransient retries path label w e :
  0 <= retries ->
  fst (tryWithRetry path label retries w) = Throw e ->
  isTimeout (message_of_instance e) = false
  /\ attempt_outcome w
       (pred (w_calls (snd (tryWithRetry path label retries w))))
       (build_request path None) = Throw e.
Proof.
  intros Hr Hthrow.
  destruct (tryWithRetry_shape retries path label w Hr)
    as [k [Hk [_ [_ Hrun]]]].
  rewrite Hrun in Hthrow |- *. simpl in Hthrow |- *.
  rewrite Nat.add_succ_r. simpl.
  destruct (attempt_outcome w (w_calls w + k) (build_request path None))
    as [r|e'| |] eqn:Ho; try discriminate.
  destruct (isTimeout (message_of_instance e')) eqn:Ht; [discriminate|].
  injection Hthrow as <-. split; [exact Ht|reflexivity].
Qed.

(** X11.  [run] invokes [paidFetch] at least once and at most four
    times, and it ends the process, with status 1, only after four
    invocations separated by one 3000 ms sleep per endpoint. *)
Theorem run_invocations_bounded (w : W) :
  (w_calls w + 1 <= w_calls (snd (run w)) <= w_calls w + 4)%nat
  /\ (forall c, fst (run w) = Exit c ->
        c = 1
        /\ w_calls (snd (run w)) = (w_calls w + 4)%nat
        /\ sleeps (w_trace (snd (run w)))
           = (sleeps (w_trace w) ++ [3000; 3000])%list).
Proof.
  destruct (tryWithRetry_shape 1 PRIMARY "opportunities" w)
    as [k1 [Hk1 [_ [Hfin1 Hrun1]]]]; [lia|].
  unfold run, bind, run_select, bind. rewrite Hrun1.
  destruct (attempt_outcome_cases _ _ _ w (w_calls w + k1)
              (build_request PRIMARY None)) as [[r Ho]|[e Ho]];
    rewrite Ho in *.
  { simpl. split; [lia|]. intros c H. discriminate. }
  destruct (isTimeout (message_of_instance e)) eqn:Ht.
  2:{ simpl. split; [lia|]. intros c H. discriminate. }
  unfold try_goes_on in Hfin1. rewrite Ht in Hfin1. simpl in Hfin1.
  apply Z.ltb_ge in Hfin1. assert (k1 = 1%nat) by lia. subst k1.
  match goal with
  | |- context [tryWithRetry FALLBACK ?l 1 ?w1] =>
    destruct (tryWithRetry_shape 1 FALLBACK l w1)
      as [k2 [Hk2 [_ [Hfin2 Hrun2]]]]; [lia|];
    rewrite Hrun2;
    destruct (attempt_outcome_cases _ _ _ w1 (w_calls w1 + k2)
                (build_request FALLBACK None)) as [[r2 Ho2]|[e2 Ho2]];
    rewrite Ho2 in *
  end.
  { simpl. split; [lia|]. intros c H. discriminate. }
  destruct (isTimeout (message_of_instance e2)) eqn:Ht2.
  2:{ simpl. split; [lia|]. intros c H. discriminate. }
  unfold try_goes_on in Hfin2. rewrite Ht2 in Hfin2. simpl in Hfin2.
  apply Z.ltb_ge in Hfin2. assert (k2 = 1%nat) by lia. subst k2.
  simpl. split; [lia|]. intros c H. injection H as <-.
  repeat split; [lia|].
  repeat first [rewrite sleeps_app | rewrite sleeps_attempt_events
               | progress simpl].
  now rewrite <- app_assoc.
Qed.

(** [call], spelt out around its use of [safePaidFetch]. *)
Lemma call_unfold label path opts w :
  call price_add label path opts w =
  match
    safePaidFetch path opts 3
      (mkWorld (w_net w) (w_calls w)
         (if 0 <? callCount w
          then w_trace w ++ [EvSleep CALL_DELAY_MS] else w_trace w)
         (totalCost w) (callCount w + 1))
  with
  | (Ok r, w1) =>
    (Ok (safe_data r),
     mkWorld (w_net w1) (w_calls w1) (w_trace w1)
       (price_add (totalCost w1) (safe_price r)) (callCount w1))
  | (Throw e, w1) => (Throw e, w1)
  | (Exit c, w1) => (Exit c, w1)
  | (Diverged, w1) => (Diverged, w1)
  end.
Proof.
  unfold call, bind, get_callCount, incr_callCount.
  destruct (0 <? callCount w);
    cbn [sleep emit ret w_net w_calls w_trace totalCost callCount];
    match goal with
    | |- context [safePaidFetch ?p ?o ?r ?w0] =>
      destruct (safePaidFetch p o r w0) as [[x|x|x|] w1]
    end; reflexivity.
Qed.

(** What a call leaves behind, whether it returned or threw. *)
Lemma call_footprint label path opts w :
  exists w' k,
    snd (call price_add label path opts w) = w'
    /\ callCount w' = callCount w + 1
    /\ (k <= 3)%nat
    /\ w_calls w' = (w_calls w + S k)%nat
    /\ sleeps (w_trace w')
       = (sleeps (w_trace w)
          ++ (if 0 <? callCount w then [CALL_DELAY_MS] else [])
          ++ linear_sleeps k)%list
    /\ ((exists d, fst (call price_add label path opts w) = Ok d)
        \/ (exists e, fst (call price_add label path opts w) = Throw e
                      /\ totalCost w' = totalCost w)).
Proof.
  assert (Hk : exists k,
    (k <= 3)%nat
    /\ w_calls (snd (call price_add label path opts w))
       = (w_calls w + S k)%nat
    /\ sleeps (w_trace (snd (call price_add label path opts w)))
       = (sleeps (w_trace w)
          ++ (if 0 <? callCount w then [CALL_DELAY_MS] else [])
          ++ linear_sleeps k)%list).
  { rewrite call_unfold.
    match goal with
    | |- context [safePaidFetch ?p ?o ?r ?w0] =>
      destruct (safePaidFetch_shape r p o w0) as [k [Hk [_ [_ Hrun]]]];
        [lia|]; rewrite Hrun; clear Hrun
    end.
    exists k.
    match goal with
    | |- context [match ?o with Ok _ => _ | _ => _ end] => destruct o
    end; simpl;
      (split; [lia|]); (split; [reflexivity|]);
      destruct (0 <? callCount w);
      rewrite ?sleeps_app, sleeps_retry_schedule; simpl;
      rewrite <- ?app_assoc, ?app_nil_r; reflexivity. }
  destruct (call_cases _ _ _ price_add label path opts w)
    as [w' [Hn [_ Hres]]].
  assert (Hsnd : snd (call price_add label path opts w) = w')
    by (destruct Hres as [[r [H _]]|[e [H _]]]; now rewrite H).
  destruct Hk as [k [Hk3 [Hc Hs]]]. rewrite Hsnd in Hc, Hs.
  exists w', k. repeat split; auto.
  destruct Hres as [[r [H _]]|[e [H [_ Ht]]]]; rewrite H; simpl; eauto.
Qed.

(** X12.  One [call] costs between one and four invocations of
    [paidFetch]; it sleeps the 5000 ms throttle when it is not the first
    call, then 5000, 10000, 15000 ms before its second, third and fourth
    attempt, and at no other time. *)
Theorem call_invocations_bounded label path opts w :
  exists k,
    (k <= 3)%nat
    /\ w_calls (snd (call price_add label path opts w))
       = (w_calls w + S k)%nat
    /\ sleeps (w_trace (snd (call price_add label path opts w)))
       = (sleeps (w_trace w)
          ++ (if 0 <? callCount w then [CALL_DELAY_MS] else [])
          ++ linear_sleeps k)%list.
Proof.
  destruct (call_footprint label path opts w)
    as [w' [k [Hsnd [_ [Hk [Hc [Hs _]]]]]]].
  exists k. rewrite Hsnd. auto.
Qed.

End HelperProperties.

(* ------------------------------------------------------------------ *)
(** ** The budget as a number *)

Section NumberBudgetProperties.

Variables Payload Settlement Price : Type.

Local Abbreviation W := (World Payload Settlement Price).

Implicit Types (w : W) (path : string) (opts : option fetch_options)
  (n a : Z) (fuel : nat).

Lemma number_le_integer a n : number_le a (inject_Z n) = (a <=? n).
Proof.
  unfold number_le, Qle_bool. simpl. now rewrite !Z.mul_1_r.
Qed.

Lemma number_lt_integer a n : number_lt a (inject_Z n) = (a <? n).
Proof.
  unfold number_lt, Qle_bool. simpl. rewrite !Z.mul_1_r.
  rewrite Z.ltb_antisym. reflexivity.
Qed.

(** At an integer budget the loop over numbers is the loop over
    integers. *)
Lemma safePaidFetch_loop_number_integer fuel : forall path opts n a w,
  safePaidFetch_loop_number fuel path opts (inject_Z n) a w
  = safePaidFetch_loop fuel path opts n a w.
Proof.
  induction fuel as [|fuel IH]; intros path opts n a w; [reflexivity|].
  cbn [safePaidFetch_loop_number safePaidFetch_loop].
  rewrite number_le_integer, number_lt_integer.
  destruct (a <=? n); [|reflexivity].
  unfold try_catch.
  match goal with
  | |- context [bind ?m ?k w] => destruct (bind m k w) as [[r|e|c|] w1]
  end; try reflexivity.
  destruct ((a <? n) && isRetryable (message_or_string e)); [|reflexivity].
  unfold bind. cbn [sleep emit]. apply IH.
Qed.

Lemma number_fuel_integer n : number_fuel (inject_Z n) = loop_fuel n.
Proof. unfold number_fuel, loop_fuel. now rewrite Qfloor_Z. Qed.

Lemma safePaidFetch_number_integer path opts n w :
  safePaidFetch_number path opts (inject_Z n) w = safePaidFetch path opts n w.
Proof.
  unfold safePaidFetch_number, safePaidFetch, bind.
  now rewrite number_fuel_integer, safePaidFetch_loop_number_integer.
Qed.

(** Whatever the budget, the fuel given to the loop is enough. *)
Lemma safePaidFetch_loop_number_terminates m :
  forall fuel path opts (retries : Q) a w,
  Qfloor retries + 1 - a <= Z.of_nat m ->
  (m < fuel)%nat ->
  fst (safePaidFetch_loop_number fuel path opts retries a w) <> Diverged.
Proof.
  induction m as [|m IH]; intros fuel path opts retries a w Hm Hfuel;
    (destruct fuel as [|fuel]; [lia|]);
    cbn [safePaidFetch_loop_number];
    destruct (number_le a retries) eqn:Hle; try (simpl; discriminate);
    assert (Ha : a <= Qfloor retries)
      by (apply Qle_bool_iff in Hle; apply Qfloor_resp_le in Hle;
          now rewrite Qfloor_Z in Hle);
    try lia.
  unfold try_catch. unfold bind at 1. rewrite paidFetch_run.
  destruct (attempt_outcome_cases _ _ _ w (w_calls w)
              (build_request path opts)) as [[r Hr]|[e He]].
  - rewrite Hr. simpl. discriminate.
  - rewrite He.
    destruct (number_lt a retries && isRetryable (message_or_string e));
      [|simpl; discriminate].
    unfold bind. cbn [sleep emit]. apply IH; lia.
Qed.

Lemma safePaidFetch_number_terminates path opts (retries : Q) w :
  fst (safePaidFetch_loop_number (number_fuel retries) path opts retries 0 w)
  <> Diverged.
Proof.
  apply (safePaidFetch_loop_number_terminates
           (Z.to_nat (Qfloor retries + 1)));
    unfold number_fuel; lia.
Qed.

(** C10, as the code has it.  For every integer [retries >= 0] the loop
    of [safePaidFetch] ends by returning a result or by throwing the
    error caught in its last attempt; it never falls through to the
    trailing [throw new Error("unreachable")], and it does not run for
    ever. *)
Theorem safePaidFetch_unreachable_dead_for_integer_retries n path opts w :
  0 <= n ->
  exists w',
    (exists r,
       safePaidFetch_loop_number (number_fuel (inject_Z n)) path opts
         (inject_Z n) 0 w = (Ok (Returned r), w')
       /\ safePaidFetch_number path opts (inject_Z n) w = (Ok r, w'))
    \/
    (exists e,
       safePaidFetch_loop_number (number_fuel (inject_Z n)) path opts
         (inject_Z n) 0 w = (Throw e, w')
       /\ attempt_outcome w (pred (w_calls w')) (build_request path opts)
          = Throw e
       /\ safePaidFetch_number path opts (inject_Z n) w = (Throw e, w')).
Proof.
  intros Hn.
  rewrite number_fuel_integer, safePaidFetch_loop_number_integer,
    safePaidFetch_number_integer.
  now apply safePaidFetch_integer_budget_ends_inside.
Qed.

(** X6.  Whatever the network does, [safePaidFetch] with an integer
    budget [retries >= 0] invokes [paidFetch] at least once and at most
    [retries + 1] times, and between the [k + 1] invocations it makes it
    sleeps 5000, 10000, ... up to [k * 5000] ms, in that order and
    nothing else. *)
Theorem safePaidFetch_attempts_bounded n path opts w :
  0 <= n ->
  exists k,
    Z.of_nat k <= n
    /\ w_calls (snd (safePaidFetch_number path opts (inject_Z n) w))
       = (w_calls w + S k)%nat
    /\ sleeps (w_trace (snd (safePaidFetch_number path opts (inject_Z n) w)))
       = (sleeps (w_trace w) ++ linear_sleeps k)%list.
Proof.
  intros Hn. rewrite safePaidFetch_number_integer.
  now apply safePaidFetch_integer_budget_bounds.
Qed.

End NumberBudgetProperties.

(* ------------------------------------------------------------------ *)
(** ** Properties of the scripts *)

Section ScriptProperties.

Variables Payload Settlement Price : Type.
Variable price_add : Price -> Price -> Price.
Variable stringify_profile_body : string -> string.
Variable render_profile : Payload -> option thrown.
Variable payload_null : Payload.

Local Abbreviation W := (World Payload Settlement Price).
Local Abbreviation result := (call_result Payload Settlement Price).

Implicit Types (w : W) (path label : string) (opts : option fetch_options).

(** X13.  Run as programs, index.ts and insiders.ts make exactly one
    invocation of [paidFetch], for the endpoint given on the command line
    or else the default one, respectively for the insiders endpoint; they
    print its result, and on any failure they end the process with
    status 1 instead of throwing. *)
Theorem single_query_scripts_exit_on_failure (argv2 : option string) w :
  let endpoint :=
    match argv2 with Some a => a | None => DEFAULT_ENDPOINT end in
  index_main argv2 w =
  (match attempt_outcome w (w_calls w) (build_request endpoint None) with
   | Ok r => Ok r
   | _ => Exit 1
   end,
   advance w 1 (attempt_events w (w_calls w) (build_request endpoint None)))
  /\
  insiders_main w =
  (match attempt_outcome w (w_calls w)
           (build_request INSIDERS_ENDPOINT None) with
   | Ok r => Ok r
   | _ => Exit 1
   end,
   advance w 1
     (attempt_events w (w_calls w) (build_request INSIDERS_ENDPOINT None))).
Proof.
  intros endpoint. unfold index_main, insiders_main, try_catch.
  fold endpoint. rewrite !paidFetch_run.
  split.
  - destruct (attempt_outcome_cases _ _ _ w (w_calls w)
                (build_request endpoint None)) as [[r H]|[e H]];
      rewrite H; reflexivity.
  - destruct (attempt_outcome_cases _ _ _ w (w_calls w)
                (build_request INSIDERS_ENDPOINT None)) as [[r H]|[e H]];
      rewrite H; reflexivity.
Qed.

(** X14.  query.ts is fail-fast: its three requests are made in order,
    the first failure is thrown as it is and no later endpoint is
    requested; when all three succeed the total is [(p1 + p2) + p3]. *)
Theorem query_main_fails_fast w :
  let c := w_calls w in
  let o1 := attempt_outcome w c (build_request QUERY_ROI None) in
  let o2 := attempt_outcome w (c + 1) (build_request QUERY_CRYPTO None) in
  let o3 := attempt_outcome w (c + 2) (build_request QUERY_TECH None) in
  let ev1 := attempt_events w c (build_request QUERY_ROI None) in
  let ev2 := attempt_events w (c + 1) (build_request QUERY_CRYPTO None) in
  let ev3 := attempt_events w (c + 2) (build_request QUERY_TECH None) in
  (forall e, o1 = Throw e ->
     query_main price_add w = (Throw e, advance w 1 ev1))
  /\ (forall r1 e, o1 = Ok r1 -> o2 = Throw e ->
        query_main price_add w = (Throw e, advance w 2 (ev1 ++ ev2)))
  /\ (forall r1 r2 e, o1 = Ok r1 -> o2 = Ok r2 -> o3 = Throw e ->
        query_main price_add w
        = (Throw e, advance w 3 (ev1 ++ ev2 ++ ev3)))
  /\ (forall r1 r2 r3, o1 = Ok r1 -> o2 = Ok r2 -> o3 = Ok r3 ->
        query_main price_add w
        = (Ok (price_add (price_add (price r1) (price r2)) (price r3)),
           advance w 3 (ev1 ++ ev2 ++ ev3))).
Proof.
  intros c o1 o2 o3 ev1 ev2 ev3.
  assert (H2 : forall evs,
    paidFetch QUERY_CRYPTO None (advance w 1 evs)
    = (o2, advance w 2 (evs ++ ev2))).
  { intros evs. rewrite paidFetch_run, advance_advance. reflexivity. }
  assert (H3 : forall evs,
    paidFetch QUERY_TECH None (advance w 2 evs)
    = (o3, advance w 3 (evs ++ ev3))).
  { intros evs. rewrite paidFetch_run, advance_advance. reflexivity. }
  unfold query_main, bind. rewrite paidFetch_run. fold c o1 ev1.
  repeat split.
  - intros e ->. reflexivity.
  - intros r1 e -> He. rewrite H2, He. reflexivity.
  - intros r1 r2 e -> Hr He. rewrite H2, Hr, H3, He.
    now rewrite <- app_assoc.
  - intros r1 r2 r3 -> Hr2 Hr3. rewrite H2, Hr2, H3, Hr3.
    now rewrite <- app_assoc.
Qed.

(** X15.  Step 1 of the yield script falls back on any failure of the
    fees query, transient or not: the volume query is then made, after
    the 5000 ms throttle, the step ends as that second call does, and two
    calls have been counted. *)
Theorem step1_falls_back_on_any_failure w e w1 :
  0 <= callCount w ->
  call price_add "Step 1: Top Pools by Fees (24h)" TOP_POOLS_BY_FEES None w
  = (Throw e, w1) ->
  step1_topPools price_add w
  = call price_add "Step 1 (Fallback): Top Pools by Volume (24h)"
         TOP_POOLS_BY_VOLUME None w1
  /\ callCount (snd (step1_topPools price_add w)) = callCount w + 2
  /\ exists rest,
       w_trace (snd (step1_topPools price_add w)) =
       (w_trace w1
        ++ EvSleep 5000
        :: EvFetch (build_request TOP_POOLS_BY_VOLUME None) false
        :: rest)%list.
Proof.
  intros Hc Hfail.
  assert (Hstep : step1_topPools price_add w
            = call price_add "Step 1 (Fallback): Top Pools by Volume (24h)"
                   TOP_POOLS_BY_VOLUME None w1)
    by (unfold step1_topPools, try_catch; now rewrite Hfail).
  split; [exact Hstep|]. rewrite Hstep.
  destruct (call_cases _ _ _ price_add "Step 1: Top Pools by Fees (24h)"
              TOP_POOLS_BY_FEES None w) as [w1' [Hn1 [_ H1]]].
  assert (w1' = w1)
    by (destruct H1 as [[r [H _]]|[e' [H _]]]; rewrite Hfail in H;
        congruence).
  subst w1'.
  destruct (call_cases _ _ _ price_add
              "Step 1 (Fallback): Top Pools by Volume (24h)"
              TOP_POOLS_BY_VOLUME None w1) as [w2 [Hn2 [[rest Htr] H2]]].
  assert (Hw2 : snd (call price_add
                       "Step 1 (Fallback): Top Pools by Volume (24h)"
                       TOP_POOLS_BY_VOLUME None w1) = w2)
    by (destruct H2 as [[r [H _]]|[e' [H _]]]; now rewrite H).
  rewrite Hw2. split; [lia|].
  replace (0 <? callCount w1) with true in Htr
    by (symmetry; apply Z.ltb_lt; lia).
  simpl in Htr. eauto.
Qed.

Lemma fee_loop_spec pools : forall feeResults w,
  exists results w',
    fee_loop price_add payload_null pools feeResults w
    = (Ok (feeResults ++ results)%list, w')
    /\ map fst results = pools
    /\ callCount w' = callCount w + Z.of_nat (List.length pools)
    /\ (w_calls w + List.length pools <= w_calls w'
        <= w_calls w + 4 * List.length pools)%nat.
Proof.
  induction pools as [|pool rest IH]; intros feeResults w.
  - exists [], w. simpl. rewrite app_nil_r.
    repeat split; try lia.
  - cbn [fee_loop]. unfold bind at 1.
    destruct (call_footprint _ _ _ price_add
                ("Fee Analysis: " ++ pool_address pool)
                (fee_analysis_path pool) None w)
      as [w1 [k [Hw1 [Hn [Hk [Hc [_ Hres]]]]]]].
    assert (Hpush : exists fees,
      try_catch
        (bind (call price_add ("Fee Analysis: " ++ pool_address pool)
                 (fee_analysis_path pool) None)
           (fun feeData => ret (feeResults ++ [(pool, feeData)])%list))
        (fun _ => ret (feeResults ++ [(pool, payload_null)])%list) w
      = (Ok (feeResults ++ [(pool, fees)])%list, w1)).
    { unfold try_catch, bind.
      destruct (call price_add ("Fee Analysis: " ++ pool_address pool)
                  (fee_analysis_path pool) None w) as [o wc].
      simpl in Hw1. subst wc.
      destruct Hres as [[d Hd]|[e [He Ht]]]; simpl in *; subst o.
      - exists d. reflexivity.
      - exists payload_null. reflexivity. }
    destruct Hpush as [fees Hpush]. rewrite Hpush.
    destruct (IH (feeResults ++ [(pool, fees)])%list w1)
      as [results [w' [Hloop [Hfst [Hn' Hc']]]]].
    exists ((pool, fees) :: results), w'.
    rewrite Hloop, <- app_assoc. simpl.
    repeat split; try lia.
    now rewrite Hfst.
Qed.

Lemma call_keeps_net label path opts w :
  w_net (snd (call price_add label path opts w)) = w_net w.
Proof.
  rewrite (call_unfold _ _ _ price_add).
  match goal with
  | |- context [safePaidFetch ?p ?o ?r ?w0] =>
    destruct (safePaidFetch_shape _ _ _ r p o w0) as [k [_ [_ [_ Hrun]]]];
      [lia|]; rewrite Hrun; clear Hrun
  end.
  match goal with
  | |- context [match ?o with Ok _ => _ | _ => _ end] => destruct o
  end; reflexivity.
Qed.

(** When no exchange succeeds any more, every call of the loop throws. *)
Lemma fee_loop_all_fail pools : forall feeResults w,
  (forall k req, (w_calls w <= k)%nat ->
     exists e, attempt_outcome w k req = Throw e) ->
  exists w',
    fee_loop price_add payload_null pools feeResults w
    = (Ok (feeResults ++ map (fun p => (p, payload_null)) pools)%list, w')
    /\ totalCost w' = totalCost w.
Proof.
  induction pools as [|pool rest IH]; intros feeResults w Hdown.
  - exists w. simpl. now rewrite app_nil_r.
  - cbn [fee_loop]. unfold bind at 1.
    destruct (call_footprint _ _ _ price_add
                ("Fee Analysis: " ++ pool_address pool)
                (fee_analysis_path pool) None w)
      as [w1 [k [Hw1 [_ [_ [Hc _]]]]]].
    pose proof (call_keeps_net ("Fee Analysis: " ++ pool_address pool)
                  (fee_analysis_path pool) None w) as Hnet.
    rewrite Hw1 in Hnet.
    destruct (call_cases _ _ _ price_add
                ("Fee Analysis: " ++ pool_address pool)
                (fee_analysis_path pool) None w)
      as [w1' [_ [_ [[r [H [Ho _]]]|[e [H [_ Ht]]]]]]];
      rewrite H in Hw1; simpl in Hw1; subst w1'.
    + destruct (Hdown (pred (w_calls w1))
                  (build_request (fee_analysis_path pool) None))
        as [e He]; [lia|]. rewrite Ho in He. discriminate.
    + unfold try_catch, bind at 1. rewrite H.
      destruct (IH (feeResults ++ [(pool, payload_null)])%list w1)
        as [w' [Hloop Hcost]].
      * intros k' req Hk'. destruct (Hdown k' req) as [e' He']; [lia|].
        exists e'. unfold attempt_outcome in *. now rewrite Hnet.
      * exists w'. cbn [ret]. rewrite Hloop, <- app_assoc. simpl.
        split; [reflexivity|congruence].
Qed.



End ScriptProperties.

(* ------------------------------------------------------------------ *)
(** ** Properties of the whale-trade aggregation *)

Section AggregationProperties.

Variable number : Type.
Variable num_add : number -> number -> number.
Variable num_zero : number.

Local Abbreviation trade := (WhaleTrade number).
Local Abbreviation cmap := (coin_map number).
Local Abbreviation agg_of := (aggregate num_add num_zero).

Implicit Types (m : cmap) (t : trade) (ts : list trade) (c k : string).

Lemma map_get_set_same m k (v : coin_agg number) :
  map_get (map_set m k v) k = Some v.
Proof.
  induction m as [|[k' v'] m IH]; simpl.
  - now rewrite String.eqb_refl.
  - destruct (String.eqb k' k) eqn:E; simpl.
    + now rewrite String.eqb_refl.
    + now rewrite E.
Qed.

Lemma map_get_set_other m k c (v : coin_agg number) :
  k <> c -> map_get (map_set m k v) c = map_get m c.
Proof.
  intros Hne. induction m as [|[k' v'] m IH]; simpl.
  - now apply String.eqb_neq in Hne as ->.
  - destruct (String.eqb k' k) eqn:E; simpl.
    + apply String.eqb_eq in E. subst k'.
      now apply String.eqb_neq in Hne as ->.
    + now rewrite IH.
Qed.

Lemma map_has_get m k :
  map_has m k = match map_get m k with Some _ => true | None => false end.
Proof.
  induction m as [|[k' v'] m IH]; simpl; [reflexivity|].
  destruct (String.eqb k' k); simpl; [reflexivity|exact IH].
Qed.

Lemma map_has_keys m k :
  map_has m k = existsb (String.eqb k) (map fst m).
Proof.
  induction m as [|[k' v'] m IH]; simpl; [reflexivity|].
  now rewrite IH, (String.eqb_sym k' k).
Qed.

Lemma map_set_keys m k (v : coin_agg number) :
  map fst (map_set m k v)
  = if map_has m k then map fst m else (map fst m ++ [k])%list.
Proof.
  induction m as [|[k' v'] m IH]; simpl; [reflexivity|].
  destruct (String.eqb k' k) eqn:E; simpl.
  - apply String.eqb_eq in E. now subst.
  - rewrite IH. now destruct (map_has m k).
Qed.

(** One round keeps the keys, or appends the coin when it is new. *)
Lemma agg_step_keys m t :
  map fst (agg_step num_add num_zero m t)
  = if map_has m (coin t) then map fst m
    else (map fst m ++ [coin t])%list.
Proof.
  unfold agg_step. destruct (map_has m (coin t)) eqn:Hhas; simpl negb;
    cbv iota.
  - rewrite map_has_get in Hhas.
    destruct (map_get m (coin t)) as [agg|] eqn:Hget; [|discriminate].
    rewrite map_set_keys, map_has_get, Hget. reflexivity.
  - rewrite map_get_set_same, map_set_keys.
    rewrite map_has_get, map_get_set_same.
    now rewrite map_set_keys, Hhas.
Qed.

Lemma first_seen_ext ts : forall (s1 s2 : list string),
  (forall c, In c s1 <-> In c s2) ->
  first_seen s1 ts = first_seen s2 ts.
Proof.
  induction ts as [|t ts IH]; intros s1 s2 Heq; simpl; [reflexivity|].
  assert (Hex : existsb (String.eqb (coin t)) s1
                = existsb (String.eqb (coin t)) s2).
  { apply eq_true_iff_eq. rewrite !existsb_exists.
    split; intros [x [Hin Hx]]; exists x; split; auto; now apply Heq. }
  rewrite Hex. destruct (existsb (String.eqb (coin t)) s2).
  - now apply IH.
  - f_equal. apply IH. intros c. simpl. now rewrite Heq.
Qed.

Lemma fold_agg_keys ts : forall m,
  map fst (fold_left (agg_step num_add num_zero) ts m)
  = (map fst m ++ first_seen (map fst m) ts)%list.
Proof.
  induction ts as [|t ts IH]; intros m; simpl.
  - now rewrite app_nil_r.
  - rewrite IH, agg_step_keys, <- map_has_keys.
    destruct (map_has m (coin t)); [reflexivity|].
    rewrite <- app_assoc. simpl. do 2 f_equal.
    apply first_seen_ext. intros c. rewrite in_app_iff. simpl. tauto.
Qed.

Lemma first_seen_fresh ts : forall (seen : list string),
  NoDup (first_seen seen ts)
  /\ forall c, In c (first_seen seen ts) ->
       ~ In c seen /\ In c (map coin ts).
Proof.
  induction ts as [|t ts IH]; intros seen; simpl.
  - split; [constructor|intros c []].
  - destruct (existsb (String.eqb (coin t)) seen) eqn:E.
    + destruct (IH seen) as [Hnd Hin]. split; [exact Hnd|].
      intros c Hc. destruct (Hin c Hc). auto.
    + destruct (IH (coin t :: seen)) as [Hnd Hin]. split.
      * constructor; [|exact Hnd].
        intros Hc. destruct (Hin _ Hc) as [Hn _]. apply Hn. now left.
      * intros c [<-|Hc].
        -- split; [|now left]. intros Hs.
           assert (existsb (String.eqb (coin t)) seen = true)
             by (apply existsb_exists; exists (coin t); split;
                 [exact Hs|apply String.eqb_refl]).
           congruence.
        -- destruct (Hin c Hc) as [Hn Hm]. split; [|now right].
           intros Hs. apply Hn. now right.
Qed.

Lemma first_seen_complete ts : forall (seen : list string) c,
  In c (map coin ts) -> ~ In c seen -> In c (first_seen seen ts).
Proof.
  induction ts as [|t ts IH]; intros seen c Hin Hns; simpl in *; [tauto|].
  destruct (existsb (String.eqb (coin t)) seen) eqn:E.
  - apply existsb_exists in E. destruct E as [x [Hx E]].
    apply String.eqb_eq in E. subst x.
    destruct Hin as [<-|Hin]; [tauto|]. now apply IH.
  - destruct (string_dec (coin t) c) as [Heq|Hne]; [now left|].
    right. destruct Hin as [Heq|Hin]; [tauto|].
    apply IH; [exact Hin|]. simpl. tauto.
Qed.

(** X18.  The keys of [coinAgg] are the coins of the trades, each once,
    in the order in which they first appear. *)
Theorem aggregate_keys_in_order_of_first_appearance ts :
  map fst (agg_of ts) = first_seen [] ts
  /\ NoDup (map fst (agg_of ts))
  /\ forall c, In c (map fst (agg_of ts)) <-> In c (map coin ts).
Proof.
  unfold aggregate. rewrite fold_agg_keys. simpl.
  destruct (first_seen_fresh ts []) as [Hnd Hin].
  split; [reflexivity|]. split; [exact Hnd|].
  intros c. split; [intros Hc; now apply Hin|].
  intros Hc. apply first_seen_complete; [exact Hc|intros []].
Qed.

Lemma agg_step_other m t c :
  coin t <> c ->
  map_get (agg_step num_add num_zero m t) c = map_get m c.
Proof.
  intros Hne. unfold agg_step.
  destruct (map_has m (coin t)) eqn:Hhas; simpl negb; cbv iota.
  - rewrite map_has_get in Hhas.
    destruct (map_get m (coin t)) as [agg|]; [|discriminate].
    now apply map_get_set_other.
  - rewrite map_get_set_same. now rewrite !map_get_set_other.
Qed.

Lemma agg_step_same m t :
  map_get (agg_step num_add num_zero m t) (coin t) =
  let agg :=
    match map_get m (coin t) with
    | Some a => a
    | None => empty_agg num_zero
    end in
  Some (if String.eqb (side t) "A" then
          mkAgg (num_add (buyVolume agg) (usd_value t)) (sellVolume agg)
                (buyCount agg + 1) (sellCount agg) (trades agg ++ [t])
        else if String.eqb (side t) "B" then
          mkAgg (buyVolume agg) (num_add (sellVolume agg) (usd_value t))
                (buyCount agg) (sellCount agg + 1) (trades agg ++ [t])
        else
          mkAgg (buyVolume agg) (sellVolume agg)
                (buyCount agg) (sellCount agg) (trades agg ++ [t])).
Proof.
  unfold agg_step.
  destruct (map_has m (coin t)) eqn:Hhas; simpl negb; cbv iota.
  - rewrite map_has_get in Hhas.
    destruct (map_get m (coin t)) as [agg|]; [|discriminate].
    now rewrite map_get_set_same.
  - rewrite map_has_get in Hhas.
    destruct (map_get m (coin t)) as [agg|] eqn:Hget; [discriminate|].
    now rewrite !map_get_set_same.
Qed.

Lemma volume_snoc ts t :
  volume num_add num_zero (ts ++ [t])
  = num_add (volume num_add num_zero ts) (usd_value t).
Proof.
  unfold volume. now rewrite map_app, fold_left_app.
Qed.

Lemma filter_snoc (f : trade -> bool) ts t :
  filter f (ts ++ [t]) = (filter f ts ++ if f t then [t] else [])%list.
Proof.
  rewrite filter_app. simpl. now destruct (f t).
Qed.

Lemma existsb_false_filter (f : trade -> bool) ts :
  existsb f ts = false -> filter f ts = [].
Proof.
  induction ts as [|t ts IH]; simpl; [reflexivity|].
  destruct (f t); simpl; [discriminate|exact IH].
Qed.

Lemma aggregate_get ts c :
  map_get (agg_of ts) c =
  if existsb (fun t => String.eqb (coin t) c) ts then
    Some (mkAgg
            (volume num_add num_zero (of_side "A" (on_coin c ts)))
            (volume num_add num_zero (of_side "B" (on_coin c ts)))
            (Z.of_nat (List.length (of_side "A" (on_coin c ts))))
            (Z.of_nat (List.length (of_side "B" (on_coin c ts))))
            (on_coin c ts))
  else None.
Proof.
  induction ts as [|t ts IH] using rev_ind; [reflexivity|].
  unfold aggregate. rewrite fold_left_app. simpl fold_left.
  fold (agg_of ts).
  unfold on_coin. rewrite existsb_app, filter_snoc. simpl existsb.
  rewrite orb_false_r.
  destruct (String.eqb (coin t) c) eqn:Hc.
  - apply String.eqb_eq in Hc. subst c.
    rewrite orb_true_r, agg_step_same, IH. cbv zeta.
    unfold of_side. rewrite !filter_snoc.
    destruct (existsb (fun t0 => String.eqb (coin t0) (coin t)) ts) eqn:Hex.
    + unfold on_coin.
      destruct (String.eqb (side t) "A") eqn:Ha.
      * apply String.eqb_eq in Ha. rewrite Ha. simpl.
        rewrite app_nil_r, volume_snoc, length_app. simpl.
        f_equal. f_equal. lia.
      * destruct (String.eqb (side t) "B") eqn:Hb; simpl;
          rewrite ?app_nil_r, ?volume_snoc, ?length_app; simpl;
          f_equal; f_equal; lia.
    + rewrite (existsb_false_filter _ ts Hex). simpl.
      destruct (String.eqb (side t) "A") eqn:Ha.
      * apply String.eqb_eq in Ha. rewrite Ha. reflexivity.
      * destruct (String.eqb (side t) "B") eqn:Hb; reflexivity.
  - rewrite orb_false_r, app_nil_r.
    rewrite agg_step_other; [exact IH|].
    now apply String.eqb_neq.
Qed.

(** X19.  For every coin, the entry of [coinAgg] holds the trades on that
    coin in their original order, the number of those with side "A" and
    with side "B", and their dollar values summed from 0 in that order;
    a coin without trades has no entry. *)
Theorem aggregate_entry_per_coin ts c :
  map_get (agg_of ts) c =
  if existsb (fun t => String.eqb (coin t) c) ts then
    Some (mkAgg
            (volume num_add num_zero (of_side "A" (on_coin c ts)))
            (volume num_add num_zero (of_side "B" (on_coin c ts)))
            (Z.of_nat (List.length (of_side "A" (on_coin c ts))))
            (Z.of_nat (List.length (of_side "B" (on_coin c ts))))
            (on_coin c ts))
  else None.
Proof. apply aggregate_get. Qed.

Lemma sides_partition (l : list trade) :
  (List.length (of_side "A" l) + List.length (of_side "B" l)
   + List.length
       (filter (fun t => negb (String.eqb (side t) "A")
                         && negb (String.eqb (side t) "B")) l)
   = List.length l)%nat.
Proof.
  unfold of_side. induction l as [|t l IH]; simpl; [reflexivity|].
  destruct (String.eqb (side t) "A") eqn:Ha.
  - apply String.eqb_eq in Ha. rewrite Ha. simpl. lia.
  - destruct (String.eqb (side t) "B"); simpl; lia.
Qed.

(** X20.  In every entry the two counters and the trades of neither side
    account for all the trades kept in it: a trade whose side is neither
    "A" nor "B" is kept in [trades] but counted nowhere, so
    [buyCount + sellCount] never exceeds the number of trades. *)
Theorem aggregate_counts_partition ts c (agg : coin_agg number) :
  map_get (agg_of ts) c = Some agg ->
  buyCount agg + sellCount agg
  + Z.of_nat (List.length
                (filter (fun t => negb (String.eqb (side t) "A")
                                  && negb (String.eqb (side t) "B"))
                   (trades agg)))
  = Z.of_nat (List.length (trades agg))
  /\ 0 <= buyCount agg
  /\ 0 <= sellCount agg
  /\ buyCount agg + sellCount agg <= Z.of_nat (List.length (trades agg)).
Proof.
  rewrite aggregate_get.
  destruct (existsb (fun t => String.eqb (coin t) c) ts); [|discriminate].
  intros H. injection H as <-. simpl.
  pose proof (sides_partition (on_coin c ts)) as Hp.
  repeat split; lia.
Qed.

(** X21.  No trade is dropped: every trade is found, under its coin, in
    the [trades] of the entry of that coin, and an entry holds no trade
    of another coin. *)
Theorem aggregate_keeps_every_trade ts t :
  In t ts ->
  exists agg,
    map_get (agg_of ts) (coin t) = Some agg
    /\ In t (trades agg)
    /\ forall t', In t' (trades agg) -> coin t' = coin t /\ In t' ts.
Proof.
  intros Hin. rewrite aggregate_get.
  assert (Hex : existsb (fun t0 => String.eqb (coin t0) (coin t)) ts = true)
    by (apply existsb_exists; exists t; split;
        [exact Hin|apply String.eqb_refl]).
  rewrite Hex. eexists. split; [reflexivity|]. simpl. unfold on_coin.
  split.
  - apply filter_In. split; [exact Hin|apply String.eqb_refl].
  - intros t' Ht'. apply filter_In in Ht'. destruct Ht' as [H1 H2].
    apply String.eqb_eq in H2. auto.
Qed.

End AggregationProperties.

(* ------------------------------------------------------------------ *)
(** ** The further properties at concrete inputs *)

Lemma payment_failure_message_witness :
  exists excerpt,
    fst (paidFetch_core (build_request "/x" None)
           (ex_paid_status 400 "bad request"))
    = Throw (ErrorObj ("Payment failed (" ++ show_nat 400 ++ "): "
                       ++ excerpt))
    /\ String.prefix excerpt "bad request" = true
    /\ String.length excerpt = Nat.min 500 (String.length "bad request").
Proof.
  apply (payment_failure_message string string Z (build_request "/x" None)
           (ex_paid_status 400 "bad request") 10000 400 "bad request");
    try reflexivity.
  discriminate.
Defined.

Lemma payment_failure_retryable_by_body_witness :
  fails_retryable (always (ex_paid_status 400 "upstream answered 500"))
    0 (build_request "/x" None).
Proof.
  apply (payment_failure_retryable_by_body string string Z
           (always (ex_paid_status 400 "upstream answered 500")) 0
           (build_request "/x" None) 10000 400 "upstream answered 500");
    try reflexivity.
  - discriminate.
  - right. reflexivity.
Defined.

Lemma retry_recovers_after_transient_failures_witness :
  let w := scripted [ex_paid_status 504 "Gateway Time-out"]
                    (ex_ok 10000 "[]") in
  safePaidFetch "/x" None 3 w =
  (Ok (mkSafe "[]" 10000),
   advance w 2
     (retry_schedule linear_backoff
        (fun i => attempt_events w i (build_request "/x" None)) 0 0 1))
  /\
  tryWithRetry "/x" "x" 3 w =
  (Ok (Some (mkResult "[]" "tx" 10000)),
   advance w 2
     (retry_schedule fixed_backoff
        (fun i => attempt_events w i (build_request "/x" None)) 0 0 1)).
Proof.
  intros w.
  destruct (retry_recovers_after_transient_failures string string Z
              1 3 "/x" "x" None w (mkResult "[]" "tx" 10000))
    as [Hs Ht]; [lia|].
  split; [apply Hs | apply Ht]; try reflexivity;
    intros j Hj; replace j with 0%nat by lia;
    eexists; split; reflexivity.
Defined.

Lemma safePaidFetch_attempts_bounded_witness :
  let w := always (ex_initial_status 504) in
  exists k,
    Z.of_nat k <= 3
    /\ w_calls (snd (safePaidFetch_number "/x" None (inject_Z 3) w))
       = (w_calls w + S k)%nat
    /\ sleeps (w_trace (snd (safePaidFetch_number "/x" None (inject_Z 3) w)))
       = (sleeps (w_trace w) ++ linear_sleeps k)%list.
Proof.
  intros w.
  apply (safePaidFetch_attempts_bounded string string Z 3 "/x" None w).
  lia.
Defined.

Lemma safePaidFetch_unreachable_dead_for_integer_retries_witness :
  let w := always (ex_initial_status 504) in
  exists w',
    (exists r,
       safePaidFetch_loop_number (number_fuel (inject_Z 3)) "/x" None
         (inject_Z 3) 0 w = (Ok (Returned r), w')
       /\ safePaidFetch_number "/x" None (inject_Z 3) w = (Ok r, w'))
    \/
    (exists e,
       safePaidFetch_loop_number (number_fuel (inject_Z 3)) "/x" None
         (inject_Z 3) 0 w = (Throw e, w')
       /\ attempt_outcome w (pred (w_calls w')) (build_request "/x" None)
          = Throw e
       /\ safePaidFetch_number "/x" None (inject_Z 3) w = (Throw e, w')).
Proof.
  intros w.
  apply (safePaidFetch_unreachable_dead_for_integer_retries string string Z
           3 "/x" None w).
  lia.
Defined.

(** C10: with a budget of one half and a gateway timeout, the loop makes
    one attempt, sleeps, finds its condition false and falls through to
    the trailing throw; the error thrown is not the one it caught. *)
Lemma unreachable_reached_with_fractional_retries :
  let w := always (ex_initial_status 504) in
  Qle_bool 0 (1 # 2) = true
  /\ attempt_outcome w 0 (build_request "/x" None)
     = Throw (ErrorObj "Expected 402, got 504")
  /\ fst (safePaidFetch_loop_number (number_fuel (1 # 2)) "/x" None
            (1 # 2) 0 w) = Ok FellThrough
  /\ fst (safePaidFetch_number "/x" None (1 # 2) w)
     = Throw (ErrorObj "unreachable")
  /\ w_calls (snd (safePaidFetch_number "/x" None (1 # 2) w)) = 1%nat
  /\ sleeps (w_trace (snd (safePaidFetch_number "/x" None (1 # 2) w)))
     = [5000].
Proof. vm_compute. repeat split. Qed.

Lemma tryWithRetry_attempts_bounded_witness :
  let w := always (ex_initial_status 504) in
  exists k,
    Z.of_nat k <= 1
    /\ w_calls (snd (tryWithRetry "/x" "x" 1 w)) = (w_calls w + S k)%nat
    /\ sleeps (w_trace (snd (tryWithRetry "/x" "x" 1 w)))
       = (sleeps (w_trace w) ++ repeat 3000 k)%list.
Proof.
  intros w.
  apply (tryWithRetry_attempts_bounded string string Z 1 "/x" "x" w).
  lia.
Defined.

Lemma negative_retries_make_no_request_witness :
  let w := always (ex_ok 10000 "[]") in
  safePaidFetch "/x" None (-1) w = (Throw (ErrorObj "unreachable"), w)
  /\ tryWithRetry "/x" "x" (-1) w = (Ok None, w).
Proof.
  intros w.
  apply (negative_retries_make_no_request string string Z
           (-1) "/x" "x" None w).
  lia.
Defined.

Lemma tryWithRetry_throws_only_nontransient_witness :
  let w := always (ex_initial_status 404) in
  let e := ErrorObj "Expected 402, got 404" in
  isTimeout (message_of_instance e) = false
  /\ attempt_outcome w (pred (w_calls (snd (tryWithRetry "/x" "x" 1 w))))
       (build_request "/x" None) = Throw e.
Proof.
  intros w e.
  apply (tryWithRetry_throws_only_nontransient string string Z
           1 "/x" "x" w e); [lia|reflexivity].
Defined.

Lemma run_invocations_bounded_witness :
  let w := always (ex_initial_status 504) in
  1 = 1
  /\ w_calls (snd (run w)) = (w_calls w + 4)%nat
  /\ sleeps (w_trace (snd (run w)))
     = (sleeps (w_trace w) ++ [3000; 3000])%list.
Proof.
  intros w.
  destruct (run_invocations_bounded string string Z w) as [_ H].
  apply (H 1). reflexivity.
Defined.

Lemma query_main_fails_fast_witness :
  let w := scripted [ex_ok 10000 "[1]"] (ex_initial_status 404) in
  query_main Z.add w =
  (Throw (ErrorObj "Expected 402, got 404"),
   advance w 2
     (attempt_events w 0 (build_request QUERY_ROI None)
      ++ attempt_events w 1 (build_request QUERY_CRYPTO None))).
Proof.
  intros w.
  destruct (query_main_fails_fast string string Z Z.add w)
    as [_ [H _]].
  apply (H (mkResult "[1]" "tx" 10000)); reflexivity.
Defined.

Lemma step1_falls_back_on_any_failure_witness :
  let w := scripted [ex_paid_status 400 "unknown sort_by"]
                    (ex_ok 10000 "[]") in
  let w1 := snd (call Z.add "Step 1: Top Pools by Fees (24h)"
                   TOP_POOLS_BY_FEES None w) in
  step1_topPools Z.add w
  = call Z.add "Step 1 (Fallback): Top Pools by Volume (24h)"
         TOP_POOLS_BY_VOLUME None w1
  /\ callCount (snd (step1_topPools Z.add w)) = callCount w + 2
  /\ exists rest,
       w_trace (snd (step1_topPools Z.add w)) =
       (w_trace w1
        ++ EvSleep 5000
        :: EvFetch (build_request TOP_POOLS_BY_VOLUME None) false
        :: rest)%list.
Proof.
  intros w w1.
  apply (step1_falls_back_on_any_failure string string Z Z.add w
           (ErrorObj "Payment failed (400): unknown sort_by") w1).
  - simpl. lia.
  - reflexivity.
Defined.


Lemma aggregate_counts_partition_witness :
  let agg := mkAgg 120000 50000 1 1
               [ sample_trade "0xa1" "BTC" "A" 120000;
                 sample_trade "0xc3" "BTC" "B" 50000;
                 sample_trade "0xd4" "BTC" "S" 70000 ] in
  buyCount agg + sellCount agg
  + Z.of_nat (List.length
                (filter (fun t => negb (String.eqb (side t) "A")
                                  && negb (String.eqb (side t) "B"))
                   (trades agg)))
  = Z.of_nat (List.length (trades agg))
  /\ 0 <= buyCount agg
  /\ 0 <= sellCount agg
  /\ buyCount agg + sellCount agg <= Z.of_nat (List.length (trades agg)).
Proof.
  intros agg.
  apply (aggregate_counts_partition Z Z.add 0 sample_trades "BTC" agg).
  reflexivity.
Defined.

Lemma aggregate_keeps_every_trade_witness :
  let t := sample_trade "0xd4" "BTC" "S" 70000 in
  exists agg,
    map_get (aggregate Z.add 0 sample_trades) (coin t) = Some agg
    /\ In t (trades agg)
    /\ forall t', In t' (trades agg) ->
         coin t' = coin t /\ In t' sample_trades.
Proof.
  intros t.
  apply (aggregate_keeps_every_trade Z Z.add 0 sample_trades t).
  simpl. auto.
Defined.

(** The aggregation of the sample trades. *)
Example aggregate_sample :
  aggregate Z.add 0 sample_trades =
  [ ("BTC", mkAgg 120000 50000 1 1
              [ sample_trade "0xa1" "BTC" "A" 120000;
                sample_trade "0xc3" "BTC" "B" 50000;
                sample_trade "0xd4" "BTC" "S" 70000 ]);
    ("ETH", mkAgg 60000 80000 1 1
              [ sample_trade "0xb2" "ETH" "B" 80000;
                sample_trade "0xe5" "ETH" "A" 60000 ]) ].
Proof. reflexivity. Qed.
